(** * Generic graph search (search.py): the search loop, the explicit
      graph and the path printer.

    The Python module is embedded shallowly.  A node is an opaque value,
    an [Arc] is the four-field named tuple, a path is the tuple of arcs
    (a list here).  Sequences produced by generators ([starting_nodes],
    [outgoing_arcs]) are finite lists: an infinite generator makes the
    corresponding [for] loop run forever and nothing is returned.  The
    frontier is a mutable object; its state is threaded explicitly. *)

From stdpp Require Import base list strings gmap pretty relations.
From Stdlib Require Import ZArith.

(** ** Data model *)

(** [class Arc(namedtuple('Arc', 'tail, head, label, cost'))].  The tail
    of the seed arc is Python's [None], so the field is an option. *)
Record Arc (node : Type) := mkArc {
  tail : option node;
  head : node;
  label : string;
  cost : Z;
}.
Arguments mkArc {node} _ _ _ _.
Arguments tail {node} _.
Arguments head {node} _.
Arguments label {node} _.
Arguments cost {node} _.

(** A path is a tuple of Arc objects. *)
Abbreviation Path node := (list (Arc node)) (only parsing).

(** Exceptions the module can raise. *)
Inductive PyError :=
  | IndexError
  | NotImplementedError
  | AssertionError (msg : string).

(** [class Graph]: the three abstract methods, and the heuristic, which
    has a default body in the base class. *)
Record Graph (node : Type) := mkGraph {
  is_goal : node → bool;
  starting_nodes : list node;
  outgoing_arcs : node → list (Arc node);
  estimated_cost_to_goal : node → PyError + Z;
}.
Arguments mkGraph {node} _ _ _ _.
Arguments is_goal {node} _ _.
Arguments starting_nodes {node} _.
Arguments outgoing_arcs {node} _ _.
Arguments estimated_cost_to_goal {node} _ _.

(** [Graph.estimated_cost_to_goal]: the body of the base class. *)
Definition Graph_estimated_cost_to_goal {node : Type} (n : node) : PyError + Z :=
  inl NotImplementedError.

(** [class Frontier]: [add] mutates the frontier; [iter_next] is one
    step of the generator returned by [__iter__], which selects a path,
    removes it and yields it, or stops ([None]).  The generator and the
    frontier share the object's state [fstate]. *)
Record Frontier (node : Type) := mkFrontier {
  fstate : Type;
  add : Path node → fstate → fstate;
  iter_next : fstate → option (Path node * fstate);
}.
Arguments mkFrontier {node} _ _ _.
Arguments fstate {node} _.
Arguments add {node} _ _ _.
Arguments iter_next {node} _ _.

(** The calls the search loop makes on its two collaborators. *)
Inductive Call (node : Type) :=
  | CallStartingNodes
  | CallAdd (p : Path node)
  | CallNext
  | CallIsGoal (n : node)
  | CallOutgoingArcs (n : node).
Arguments CallStartingNodes {node}.
Arguments CallAdd {node} _.
Arguments CallNext {node}.
Arguments CallIsGoal {node} _.
Arguments CallOutgoingArcs {node} _.

(** ** The search loop *)

Section generic_search.
Context {node : Type}.
Variable graph : Graph node.
Variable Fr : Frontier node.

(** The state the loop threads: the frontier object and the calls made
    so far, oldest first. *)
Record SearchState := mkState {
  frontier : fstate Fr;
  calls : list (Call node);
}.

Inductive Outcome :=
  | Returned (solution : option (Path node)) (σ : SearchState)
  | Raised (e : PyError) (σ : SearchState)
  | OutOfFuel (σ : SearchState).

(** The state in which a run ended or was cut off. *)
Definition final_state (o : Outcome) : SearchState :=
  match o with Returned _ σ | Raised _ σ | OutOfFuel σ => σ end.

Definition record (c : Call node) (σ : SearchState) : SearchState :=
  mkState (frontier σ) (calls σ ++ [c]).

(** [frontier.add(path)] *)
Definition frontier_add (σ : SearchState) (path : Path node) : SearchState :=
  mkState (add Fr path (frontier σ)) (calls σ ++ [CallAdd path]).

(** [(Arc(None, node, "no action", 0),)] *)
Definition seed_arc (n : node) : Arc node := mkArc None n "no action" 0.
Definition seed_path (n : node) : Path node := [seed_arc n].

(** Lines 23-24: one seed path per starting node. *)
Definition add_seeds (σ : SearchState) : SearchState :=
  foldl (λ σ n, frontier_add σ (seed_path n))
        (record CallStartingNodes σ) (starting_nodes graph).

(** Lines 34-35: every extension of [path] by an outgoing arc. *)
Definition expand (path : Path node) (n : node) (σ : SearchState) : SearchState :=
  foldl (λ σ arc, frontier_add σ (path ++ [arc]))
        (record (CallOutgoingArcs n) σ) (outgoing_arcs graph n).

(** Lines 27-35: the [for path in frontier] loop, one iteration per
    unit of fuel; when the fuel runs out the run is cut off in the state
    reached.  [path[-1]] raises IndexError on the empty tuple. *)
Fixpoint search_loop (fuel : nat) (σ : SearchState) : Outcome :=
  match fuel with
  | O => OutOfFuel σ
  | S fuel' =>
    match iter_next Fr (frontier σ) with
    | None => Returned None (record CallNext σ)
    | Some (path, f') =>
      let σ1 := mkState f' (calls σ ++ [CallNext]) in
      match last path with
      | None => Raised IndexError σ1
      | Some arc =>
        let node_to_expand := head arc in
        let σ2 := record (CallIsGoal node_to_expand) σ1 in
        if is_goal graph node_to_expand then Returned (Some path) σ2
        else search_loop fuel' (expand path node_to_expand σ2)
      end
    end
  end.

(** [generic_search(graph, frontier)], on a frontier in state [f0]. *)
Definition generic_search (fuel : nat) (f0 : fstate Fr) : Outcome :=
  search_loop fuel (add_seeds (mkState f0 [])).

(** The paths handed to [frontier.add]. *)
Definition added_paths (cs : list (Call node)) : list (Path node) :=
  omap (λ c, match c with CallAdd p => Some p | _ => None end) cs.
End generic_search.

Arguments Returned {node Fr} _ _.
Arguments Raised {node Fr} _ _.
Arguments OutOfFuel {node Fr} _.
Arguments final_state {node Fr} _.
Arguments frontier {node Fr} _.
Arguments calls {node Fr} _.
Arguments mkState {node Fr} _ _.

(** ** The explicit graph *)

Section ExplicitGraph.
Context {node : Type} `{Countable node}.
(** Python's [str] on nodes, used to build arc labels. *)
Variable str : node → string.
(** The type of the [estimates] argument, which is stored and never read. *)
Variable Estimates : Type.

(** An edge is a tuple [(tail, head)] or [(tail, head, cost)]. *)
Record Edge := mkEdge {
  edge_tail : node;
  edge_head : node;
  edge_cost : option Z;
}.

Record ExplicitGraph := mkExplicitGraph {
  nodes : gset node;
  edge_list : list Edge;
  starting_list : list node;
  goal_nodes : gset node;
  estimates : option Estimates;
}.

(** [ExplicitGraph.__init__]: three assertions, then the fields are
    stored.  A failed [assert] raises AssertionError with its message. *)
Definition ExplicitGraph_init (nodes : gset node) (edge_list : list Edge)
    (starting_list : list node) (goal_nodes : gset node)
    (estimates : option Estimates) : PyError + ExplicitGraph :=
  if negb (forallb (λ e, bool_decide (edge_tail e ∈ nodes)
                         && bool_decide (edge_head e ∈ nodes)) edge_list)
  then inl (AssertionError "edges must link two existing nodes!")
  else if negb (forallb (λ n, bool_decide (n ∈ nodes)) starting_list)
  then inl (AssertionError "The starting_states must be in nodes.")
  else if negb (forallb (λ n, bool_decide (n ∈ nodes)) (elements goal_nodes))
  then inl (AssertionError "The goal states must be in nodes.")
  else inr (mkExplicitGraph nodes edge_list starting_list goal_nodes estimates).

(** [ExplicitGraph.starting_nodes] *)
Definition ExplicitGraph_starting_nodes (self : ExplicitGraph) : list node :=
  starting_list self.

(** [ExplicitGraph.is_goal] *)
Definition ExplicitGraph_is_goal (self : ExplicitGraph) (n : node) : bool :=
  bool_decide (n ∈ goal_nodes self).

(** The body of the [for edge in self.edge_list] loop of
    [outgoing_arcs], as a recursion over the edge list. *)
Fixpoint arcs_of_edges (edges : list Edge) (n : node) : list (Arc node) :=
  match edges with
  | [] => []
  | edge :: edges' =>
    let tl := edge_tail edge in
    let hd := edge_head edge in
    if bool_decide (tl = n) then
      let c := match edge_cost edge with Some c => c | None => 1%Z end in
      mkArc (Some tl) hd (str tl +:+ "->" +:+ str hd) c :: arcs_of_edges edges' n
    else arcs_of_edges edges' n
  end.

(** [ExplicitGraph.outgoing_arcs] *)
Definition ExplicitGraph_outgoing_arcs (self : ExplicitGraph) (n : node)
    : list (Arc node) :=
  arcs_of_edges (edge_list self) n.

(** An ExplicitGraph seen through the Graph interface; the heuristic
    is inherited from the base class. *)
Definition ExplicitGraph_as_Graph (self : ExplicitGraph) : Graph node :=
  mkGraph (ExplicitGraph_is_goal self) (ExplicitGraph_starting_nodes self)
          (ExplicitGraph_outgoing_arcs self) Graph_estimated_cost_to_goal.
End ExplicitGraph.

Arguments Edge node : clear implicits.
Arguments ExplicitGraph node {_ _} Estimates.
Arguments mkEdge {node} _ _ _.
Arguments edge_tail {node} _.
Arguments edge_head {node} _.
Arguments edge_cost {node} _.
Arguments nodes {node _ _ Estimates} _.
Arguments edge_list {node _ _ Estimates} _.
Arguments starting_list {node _ _ Estimates} _.
Arguments goal_nodes {node _ _ Estimates} _.
Arguments estimates {node _ _ Estimates} _.
Arguments ExplicitGraph_starting_nodes {node _ _ Estimates} _.
Arguments ExplicitGraph_is_goal {node _ _ Estimates} _ _.
Arguments ExplicitGraph_outgoing_arcs {node _ _} str {Estimates} _ _.
Arguments ExplicitGraph_as_Graph {node _ _} str {Estimates} _.

(** ** The path printer *)

Section print_actions.
Context {node : Type}.

(** [path[1:-1]] *)
Definition inner_arcs (path : Path node) : Path node :=
  drop 1 (take (length path - 1) path).

(** [sum(arc.cost for arc in path)] *)
Definition total_cost (path : Path node) : Z :=
  foldl Z.add 0%Z (cost <$> path).

(** [print_actions(path)]: the lines written to standard output.  The
    argument is a path or [None]; [None] and the empty tuple are both
    falsy. *)
Definition print_actions (path : option (Path node)) : list string :=
  match path with
  | Some p =>
    match last p with
    | Some last_arc =>
      ["Actions:"]
      ++ ((λ arc, "  " +:+ label arc +:+ ",") <$> inner_arcs p)
      ++ ["  " +:+ label last_arc +:+ "."]
      ++ ["Total Cost: " +:+ pretty (total_cost p)]
    | None => ["There is no solution!"]
    end
  | None => ["There is no solution!"]
  end.
End print_actions.


(** ** The Frontier contract

    The abstract class fixes no data structure.  Its docstrings say that
    [add] adds a path to the frontier and that the generator selects a
    path, removes it from the frontier and returns it.  [contents] is the
    collection of paths resident in a frontier state. *)

Section contract.
Context {node : Type}.
Variable Fr : Frontier node.
Variable contents : fstate Fr → list (Path node).

(** What holds of every strategy, pruning ones included: [add] admits at
    most the path it is given, a produced path was resident and is
    resident no more, and an empty frontier produces nothing. *)
Record frontier_sound : Prop := {
  sound_add : ∀ p f, contents (add Fr p f) ⊆+ p :: contents f;
  sound_next : ∀ f p f',
    iter_next Fr f = Some (p, f') → p :: contents f' ⊆+ contents f;
  sound_empty : ∀ f, contents f = [] → iter_next Fr f = None;
}.

(** The contract in full: every path given to [add] is admitted, a
    produced path is removed and nothing else changes, and production
    stops exactly when no path is resident. *)
Record frontier_contract : Prop := {
  contract_add : ∀ p f, contents (add Fr p f) ≡ₚ p :: contents f;
  contract_next : ∀ f p f',
    iter_next Fr f = Some (p, f') → contents f ≡ₚ p :: contents f';
  contract_exhausted : ∀ f, iter_next Fr f = None ↔ contents f = [];
}.

(** A strategy that produces paths in order of total path cost. *)
Definition cheapest_first : Prop :=
  ∀ f p f', iter_next Fr f = Some (p, f') →
    ∀ q, q ∈ contents f → (total_cost p ≤ total_cost q)%Z.
End contract.

(** ** Two strategies

    The module leaves the strategies to subclasses.  These two are
    instances of the contract: a queue, and a frontier that always
    produces a cheapest resident path. *)

Section strategies.
Context {node : Type}.

Definition fifo_next (f : list (Path node)) : option (Path node * list (Path node)) :=
  match f with
  | [] => None
  | p :: f' => Some (p, f')
  end.

Definition fifo_frontier : Frontier node :=
  mkFrontier (list (Path node)) (λ p f, f ++ [p]) fifo_next.

Fixpoint pop_cheapest (f : list (Path node)) : option (Path node * list (Path node)) :=
  match f with
  | [] => None
  | p :: f' =>
    match pop_cheapest f' with
    | None => Some (p, [])
    | Some (q, r) =>
      if (total_cost p <=? total_cost q)%Z then Some (p, f') else Some (q, p :: r)
    end
  end.

Definition cheapest_frontier : Frontier node :=
  mkFrontier (list (Path node)) (λ p f, f ++ [p]) pop_cheapest.
End strategies.

(** ** The graphs of the two scenarios, with strings for nodes
    (Python's [str] is the identity on them). *)

Definition scenario_abc : PyError + ExplicitGraph string unit :=
  ExplicitGraph_init unit {["A"; "B"; "C"]}
    [mkEdge "A" "B" (Some 1%Z); mkEdge "B" "C" (Some 1%Z); mkEdge "A" "C" (Some 5%Z)]
    ["A"] {["C"]} None.

Definition scenario_a : PyError + ExplicitGraph string unit :=
  ExplicitGraph_init unit {["A"]} [] ["A"] {["A"]} None.

(** The graphs these constructions yield. *)
Definition explicit_abc : ExplicitGraph string unit :=
  mkExplicitGraph unit {["A"; "B"; "C"]}
    [mkEdge "A" "B" (Some 1%Z); mkEdge "B" "C" (Some 1%Z); mkEdge "A" "C" (Some 5%Z)]
    ["A"] {["C"]} None.

Definition explicit_a : ExplicitGraph string unit :=
  mkExplicitGraph unit {["A"]} [] ["A"] {["A"]} None.

Definition graph_abc : Graph string := ExplicitGraph_as_Graph id explicit_abc.

(** The first graph without its goal, and a graph without starting node. *)
Definition graph_no_goal : Graph string :=
  ExplicitGraph_as_Graph id
    (mkExplicitGraph unit {["A"; "B"; "C"]}
       [mkEdge "A" "B" (Some 1%Z); mkEdge "B" "C" (Some 1%Z);
        mkEdge "A" "C" (Some 5%Z)]
       ["A"] ∅ None).

Definition graph_no_start : Graph string :=
  ExplicitGraph_as_Graph id
    (mkExplicitGraph unit {["A"]} [] [] {["A"]} None).

(** The two paths from A to C in the first scenario. *)
Definition path_abc : Path string :=
  [mkArc None "A" "no action" 0%Z; mkArc (Some "A") "B" "A->B" 1%Z;
   mkArc (Some "B") "C" "B->C" 1%Z].

Definition path_ac : Path string :=
  [mkArc None "A" "no action" 0%Z; mkArc (Some "A") "C" "A->C" 5%Z].

(** ** Predicates used in the statements *)

Section predicates.
Context {node : Type}.
Variable graph : Graph node.

(** A path that opens with the seed arc of a starting node. *)
Definition seeded (p : Path node) : Prop :=
  ∃ s rest, s ∈ starting_nodes graph ∧ p = seed_arc s :: rest.

(** The path invariant of the data model: the first arc has no tail,
    the label "no action" and cost 0, and each arc leaves the node the
    arc before it enters. *)
Definition well_formed (p : Path node) : Prop :=
  (∃ a rest, p = a :: rest ∧ tail a = None ∧ label a = "no action" ∧ cost a = 0%Z)
  ∧ ∀ i a b, p !! i = Some a → p !! S i = Some b → tail b = Some (head a).

(** [m] is the head of an arc that [outgoing_arcs] yields for [n]. *)
Definition successor (n m : node) : Prop :=
  ∃ arc, arc ∈ outgoing_arcs graph n ∧ head arc = m.

(** The graph is finite: [ns] holds the starting nodes and is closed
    under [successor]. *)
Definition finite_graph (ns : list node) : Prop :=
  (∀ s, s ∈ starting_nodes graph → s ∈ ns)
  ∧ ∀ n m, n ∈ ns → successor n m → m ∈ ns.

(** No node of [ns] lies on a cycle. *)
Definition acyclic (ns : list node) : Prop :=
  ∀ n, n ∈ ns → ¬ tc successor n n.

(** No goal node can be reached from a starting node. *)
Definition no_goal_reachable : Prop :=
  ∀ s n, s ∈ starting_nodes graph → rtc successor s n → is_goal graph n = false.

(** The paths the search can build: a seed, extended arc by arc along
    [outgoing_arcs]. *)
Inductive search_path : Path node → Prop :=
  | search_path_seed s :
      s ∈ starting_nodes graph → search_path (seed_path s)
  | search_path_extend p a arc :
      search_path p → last p = Some a →
      arc ∈ outgoing_arcs graph (head a) → search_path (p ++ [arc]).

(** The number of walks of at most [d] arcs that leave [n]. *)
Fixpoint walks_from (d : nat) (n : node) : nat :=
  match d with
  | O => 1
  | S d' => S (sum_list ((λ arc, walks_from d' (head arc)) <$> outgoing_arcs graph n))
  end.

(** The work a resident path still stands for, in a graph of at most
    [bound] nodes. *)
Definition path_weight (bound : nat) (p : Path node) : nat :=
  match last p with
  | Some a => walks_from (bound - length p) (head a)
  | None => 0
  end.
End predicates.

Section invariant_def.
Context {node : Type}.
Variable graph : Graph node.
Variable Fr : Frontier node.
Variable contents : fstate Fr → list (Path node).

(** [Q] holds of every resident path and of every path added so far. *)
Definition holds_in (Q : Path node → Prop) (σ : SearchState Fr) : Prop :=
  Forall Q (contents (frontier σ)) ∧ Forall Q (added_paths (calls σ)).

Definition frontier_weight (bound : nat) (f : fstate Fr) : nat :=
  sum_list (path_weight graph bound <$> contents f).
End invariant_def.

(** ** What the specification says of the explicit graph and the printer *)

Section claimed.
Context {node : Type} `{Countable node}.
Variable str : node → string.

(** The arc an edge stands for. *)
Definition arc_of_edge (e : Edge node) : Arc node :=
  mkArc (Some (edge_tail e)) (edge_head e)
        (str (edge_tail e) +:+ "->" +:+ str (edge_head e))
        (default 1%Z (edge_cost e)).

(** Every edge, starting node and goal node is in the node set. *)
Definition valid_arguments (nodes : gset node) (edge_list : list (Edge node))
    (starting_list : list node) (goal_nodes : gset node) : Prop :=
  (∀ e, e ∈ edge_list → edge_tail e ∈ nodes ∧ edge_head e ∈ nodes)
  ∧ (∀ n, n ∈ starting_list → n ∈ nodes)
  ∧ (∀ n, n ∈ goal_nodes → n ∈ nodes).

(** An action list as it is laid out: one label per line, a comma after
    each but the last, a full stop after the last. *)
Fixpoint action_lines (labels : list string) : list string :=
  match labels with
  | [] => []
  | [l] => ["  " +:+ l +:+ "."]
  | l :: ls => ("  " +:+ l +:+ ",") :: action_lines ls
  end.

(** The output described for a solution path: the labels of all arcs
    but the seed, then the sum of all costs. *)
Definition claimed_output (p : Path node) : list string :=
  ["Actions:"] ++ action_lines (label <$> drop 1 p)
  ++ ["Total Cost: " +:+ pretty (foldr (λ arc s, (cost arc + s)%Z) 0%Z p)].
End claimed.

(** ** Further predicates on graphs, paths and call logs *)

Section more_predicates.
Context {node : Type}.
Variable graph : Graph node.

(** A path as the loop grows it, read arc by arc: it opens with the
    seed of a starting node, and each later arc was yielded by
    [outgoing_arcs] for the head of the arc before it, which was not a
    goal. *)
Definition graph_path (p : Path node) : Prop :=
  (∃ s rest, s ∈ starting_nodes graph ∧ p = seed_arc s :: rest)
  ∧ ∀ i a b, p !! i = Some a → p !! S i = Some b →
      is_goal graph (head a) = false ∧ b ∈ outgoing_arcs graph (head a).

(** Some goal node can be reached from a starting node. *)
Definition goal_reachable : Prop :=
  ∃ s n, s ∈ starting_nodes graph ∧ rtc (successor graph) s n
         ∧ is_goal graph n = true.

(** Every node that can be reached has an outgoing arc. *)
Definition no_dead_end : Prop :=
  ∀ s n, s ∈ starting_nodes graph → rtc (successor graph) s n →
    outgoing_arcs graph n ≠ [].

(** A log in which [outgoing_arcs] was never asked about a goal node. *)
Definition expands_no_goal (cs : list (Call node)) : Prop :=
  Forall (λ c, match c with
               | CallOutgoingArcs n => is_goal graph n = false
               | _ => True
               end) cs.

(** The calls that seed the frontier. *)
Definition seeding_calls : list (Call node) :=
  CallStartingNodes :: ((λ s, CallAdd (seed_path s)) <$> starting_nodes graph).
End more_predicates.

Section more_validation.
Context {node : Type} `{Countable node}.

Definition edges_in (nodes : gset node) (edge_list : list (Edge node)) : Prop :=
  ∀ e, e ∈ edge_list → edge_tail e ∈ nodes ∧ edge_head e ∈ nodes.

Definition all_in (nodes : gset node) (l : list node) : Prop :=
  ∀ n, n ∈ l → n ∈ nodes.
End more_validation.

(** A graph with one node and one arc, from the node to itself. *)
Definition graph_loop : Graph string :=
  ExplicitGraph_as_Graph id
    (mkExplicitGraph unit {["A"]} [mkEdge "A" "A" None] ["A"] ∅ None).

(** * Properties *)

(** ** Lists as multisets *)

Lemma Forall_sub {A : Type} (P : A → Prop) (l k : list A) :
  l ⊆+ k → Forall P k → Forall P l.
Proof.
  intros Hsub Hk. apply Forall_forall. intros x Hx.
  eapply Forall_forall; [exact Hk|]. by eapply elem_of_submseteq.
Qed.

Lemma sum_list_sub {A : Type} (w : A → nat) (l k : list A) :
  l ⊆+ k → sum_list (w <$> l) ≤ sum_list (w <$> k).
Proof.
  intros Hsub. apply submseteq_Permutation in Hsub as [k' Hk].
  rewrite Hk, fmap_app, sum_list_with_app. lia.
Qed.

(** ** The frontier through the loop *)

Section search_facts.
Context {node : Type}.
Variable graph : Graph node.
Variable Fr : Frontier node.
Variable contents : fstate Fr → list (Path node).
Hypothesis Hsound : frontier_sound Fr contents.

Lemma added_paths_app (cs1 cs2 : list (Call node)) :
  added_paths (cs1 ++ cs2) = added_paths cs1 ++ added_paths cs2.
Proof. apply omap_app. Qed.

Lemma foldl_add_frontier (ps : list (Path node)) (σ : SearchState Fr) :
  contents (frontier (foldl (frontier_add Fr) σ ps)) ⊆+ ps ++ contents (frontier σ).
Proof.
  revert σ. induction ps as [|p ps IH]; intros σ; simpl; [done|].
  etrans; [apply IH|]. simpl.
  etrans; [apply submseteq_skips_l, (sound_add _ _ Hsound)|].
  apply Permutation_submseteq. by rewrite Permutation_middle.
Qed.

Lemma foldl_add_calls (ps : list (Path node)) (σ : SearchState Fr) :
  added_paths (calls (foldl (frontier_add Fr) σ ps)) = added_paths (calls σ) ++ ps.
Proof.
  revert σ. induction ps as [|p ps IH]; intros σ; simpl.
  - by rewrite app_nil_r.
  - rewrite IH. simpl. rewrite added_paths_app. simpl. by rewrite <- app_assoc.
Qed.

Lemma expand_frontier (p : Path node) (n : node) (σ : SearchState Fr) :
  contents (frontier (expand graph Fr p n σ))
  ⊆+ ((λ arc, p ++ [arc]) <$> outgoing_arcs graph n) ++ contents (frontier σ).
Proof.
  unfold expand.
  rewrite <- (foldl_fmap (frontier_add Fr) (record Fr (CallOutgoingArcs n) σ)
               (outgoing_arcs graph n) (λ arc, p ++ [arc])).
  exact (foldl_add_frontier _ (record Fr (CallOutgoingArcs n) σ)).
Qed.

Lemma expand_calls (p : Path node) (n : node) (σ : SearchState Fr) :
  added_paths (calls (expand graph Fr p n σ))
  = added_paths (calls σ) ++ ((λ arc, p ++ [arc]) <$> outgoing_arcs graph n).
Proof.
  unfold expand.
  rewrite <- (foldl_fmap (frontier_add Fr) (record Fr (CallOutgoingArcs n) σ)
               (outgoing_arcs graph n) (λ arc, p ++ [arc])).
  rewrite foldl_add_calls. simpl. rewrite added_paths_app. simpl.
  by rewrite app_nil_r.
Qed.

Lemma add_seeds_frontier (σ : SearchState Fr) :
  contents (frontier (add_seeds graph Fr σ))
  ⊆+ (seed_path <$> starting_nodes graph) ++ contents (frontier σ).
Proof.
  unfold add_seeds.
  rewrite <- (foldl_fmap (frontier_add Fr) (record Fr CallStartingNodes σ)
               (starting_nodes graph) seed_path).
  exact (foldl_add_frontier _ (record Fr CallStartingNodes σ)).
Qed.

Lemma add_seeds_calls (σ : SearchState Fr) :
  added_paths (calls (add_seeds graph Fr σ))
  = added_paths (calls σ) ++ (seed_path <$> starting_nodes graph).
Proof.
  unfold add_seeds.
  rewrite <- (foldl_fmap (frontier_add Fr) (record Fr CallStartingNodes σ)
               (starting_nodes graph) seed_path).
  rewrite foldl_add_calls. simpl. rewrite added_paths_app. simpl.
  by rewrite app_nil_r.
Qed.

(** More fuel does not change a run that has returned. *)
Lemma search_loop_fuel_mono (fuel fuel' : nat) (σ σ' : SearchState Fr) sol :
  fuel ≤ fuel' →
  search_loop graph Fr fuel σ = Returned sol σ' →
  search_loop graph Fr fuel' σ = Returned sol σ'.
Proof.
  revert fuel' σ. induction fuel as [|fuel IH]; intros fuel' σ Hle; [done|].
  destruct fuel' as [|fuel']; [lia|]. simpl.
  destruct (iter_next Fr (frontier σ)) as [[p f']|]; [|done].
  destruct (last p) as [a|]; [|done].
  destruct (is_goal graph (head a)); [done|].
  apply IH. lia.
Qed.

(** *** A property of paths that the loop maintains *)

Variable Q : Path node → Prop.
Hypothesis Q_nonempty : ∀ p, Q p → p ≠ [].
Hypothesis Q_seed : ∀ s, s ∈ starting_nodes graph → Q (seed_path s).
Hypothesis Q_extend : ∀ p a arc,
  Q p → last p = Some a → is_goal graph (head a) = false →
  arc ∈ outgoing_arcs graph (head a) → Q (p ++ [arc]).

Lemma holds_in_seeds (f0 : fstate Fr) :
  contents f0 = [] → holds_in Fr contents Q (add_seeds graph Fr (mkState f0 [])).
Proof.
  intros Hf0.
  assert (Forall Q (seed_path <$> starting_nodes graph)) as Hseeds.
  { apply Forall_fmap, Forall_forall. intros s Hs. by apply Q_seed. }
  split.
  - eapply Forall_sub; [apply add_seeds_frontier|].
    simpl. rewrite Hf0, app_nil_r. done.
  - rewrite add_seeds_calls. simpl. done.
Qed.

(** One iteration that does not stop keeps the property. *)
Lemma holds_in_step (σ : SearchState Fr) p f' a :
  holds_in Fr contents Q σ →
  iter_next Fr (frontier σ) = Some (p, f') →
  last p = Some a → is_goal graph (head a) = false →
  holds_in Fr contents Q
    (expand graph Fr p (head a)
       (record Fr (CallIsGoal (head a)) (mkState f' (calls σ ++ [CallNext])))).
Proof.
  intros [Hres Hadd] Hnext Hlast Hgoal.
  pose proof (sound_next _ _ Hsound _ _ _ Hnext) as Hsub.
  assert (Forall Q (p :: contents f')) as Hpf.
  { eapply Forall_sub; [exact Hsub|done]. }
  apply Forall_cons in Hpf as [HQp Hf'].
  assert (Forall Q ((λ arc, p ++ [arc]) <$> outgoing_arcs graph (head a))) as Hext.
  { apply Forall_fmap, Forall_forall. intros arc Harc. simpl. by eapply Q_extend. }
  split.
  - eapply Forall_sub; [apply expand_frontier|].
    simpl. by apply Forall_app.
  - rewrite expand_calls. simpl. rewrite !added_paths_app. simpl.
    rewrite !app_nil_r. by apply Forall_app.
Qed.

Lemma produced_holds (σ : SearchState Fr) p f' :
  holds_in Fr contents Q σ → iter_next Fr (frontier σ) = Some (p, f') → Q p.
Proof.
  intros [Hres _] Hnext.
  pose proof (sound_next _ _ Hsound _ _ _ Hnext) as Hsub.
  eapply Forall_forall; [exact Hres|].
  eapply elem_of_submseteq; [|exact Hsub]. left.
Qed.

(** The loop keeps the property, never indexes an empty path, and what
    it returns has the property and ends at a goal. *)
Lemma search_loop_holds (fuel : nat) (σ : SearchState Fr) :
  holds_in Fr contents Q σ →
  holds_in Fr contents Q (final_state (search_loop graph Fr fuel σ))
  ∧ match search_loop graph Fr fuel σ with
    | Returned (Some p) _ =>
        Q p ∧ ∃ a, last p = Some a ∧ is_goal graph (head a) = true
    | Returned None σ' => iter_next Fr (frontier σ') = None
    | Raised _ _ => False
    | OutOfFuel _ => True
    end.
Proof.
  revert σ. induction fuel as [|fuel IH]; intros σ Hσ; simpl; [done|].
  destruct (iter_next Fr (frontier σ)) as [[p f']|] eqn:Hnext; simpl.
  - pose proof (produced_holds _ _ _ Hσ Hnext) as HQp.
    destruct (last p) as [a|] eqn:Hlast.
    + destruct (is_goal graph (head a)) eqn:Hgoal; simpl.
      * split; [|eauto].
        destruct Hσ as [Hres Hadd].
        pose proof (sound_next _ _ Hsound _ _ _ Hnext) as Hsub.
        split; simpl.
        -- eapply Forall_sub; [|exact Hres].
           etrans; [|exact Hsub]. by apply submseteq_cons.
        -- rewrite !added_paths_app. simpl. by rewrite !app_nil_r.
      * apply IH. by apply holds_in_step.
    + apply last_None in Hlast. by apply Q_nonempty in HQp.
  - split; [|done]. destruct Hσ as [Hres Hadd]. split; simpl; [done|].
    rewrite added_paths_app. simpl. by rewrite app_nil_r.
Qed.
End search_facts.

(** ** The two strategies meet the contract *)

Section strategy_facts.
Context {node : Type}.

Lemma contract_sound (Fr : Frontier node) (contents : fstate Fr → list (Path node)) :
  frontier_contract Fr contents → frontier_sound Fr contents.
Proof.
  intros [Hadd Hnext Hex]. split.
  - intros p f. apply Permutation_submseteq, Hadd.
  - intros f p f' H. symmetry in H. apply Permutation_submseteq.
    symmetry. by apply Hnext.
  - intros f. apply Hex.
Qed.

Lemma fifo_contract : frontier_contract (@fifo_frontier node) (λ f, f).
Proof.
  split; simpl.
  - intros p f. by rewrite Permutation_app_comm.
  - intros [|q f] p f' Hnext; simplify_eq/=. done.
  - intros [|q f]; simpl; split; done.
Qed.

Lemma pop_cheapest_None (f : list (Path node)) : pop_cheapest f = None ↔ f = [].
Proof.
  destruct f as [|p f]; simpl; [done|]. split; [|done].
  destruct (pop_cheapest f) as [[q r]|]; [|done]. by case_match.
Qed.

Lemma pop_cheapest_Some (f : list (Path node)) p f' :
  pop_cheapest f = Some (p, f') →
  f ≡ₚ p :: f' ∧ ∀ q, q ∈ f → (total_cost p ≤ total_cost q)%Z.
Proof.
  revert p f'. induction f as [|x f IH]; intros p f' Hpop; simpl in *; [done|].
  destruct (pop_cheapest f) as [[q r]|] eqn:Hf.
  - destruct (IH _ _ eq_refl) as [Hperm Hmin].
    destruct (Z.leb_spec (total_cost x) (total_cost q)); simplify_eq.
    + split; [done|]. intros y [->|Hy]%elem_of_cons; [lia|].
      specialize (Hmin _ Hy). lia.
    + split; [by rewrite Hperm, Permutation_swap|].
      intros y [->|Hy]%elem_of_cons; [lia|]. by apply Hmin.
  - apply pop_cheapest_None in Hf as ->. simplify_eq. split; [done|].
    intros y ->%list_elem_of_singleton. lia.
Qed.

Lemma cheapest_contract : frontier_contract (@cheapest_frontier node) (λ f, f).
Proof.
  split; simpl.
  - intros p f. by rewrite Permutation_app_comm.
  - intros f p f' Hpop. by apply pop_cheapest_Some in Hpop as [? _].
  - apply pop_cheapest_None.
Qed.

Lemma cheapest_cheapest_first : cheapest_first (@cheapest_frontier node) (λ f, f).
Proof. intros f p f' Hpop. by apply pop_cheapest_Some in Hpop as [_ ?]. Qed.
End strategy_facts.

(** ** What the search returns and what it adds *)

Section search_results.
Context {node : Type}.
Variable graph : Graph node.
Variable Fr : Frontier node.
Variable contents : fstate Fr → list (Path node).

Lemma seeded_nonempty (p : Path node) : seeded graph p → p ≠ [].
Proof. by intros (s & rest & _ & ->). Qed.

Lemma seeded_seed (s : node) : s ∈ starting_nodes graph → seeded graph (seed_path s).
Proof. intros Hs. by exists s, []. Qed.

Lemma seeded_extend (p : Path node) (arc : Arc node) :
  seeded graph p → seeded graph (p ++ [arc]).
Proof. intros (s & rest & Hs & ->). by exists s, (rest ++ [arc]). Qed.

Lemma well_formed_nonempty (p : Path node) : well_formed p → p ≠ [].
Proof. by intros [(a & rest & -> & _) _]. Qed.

Lemma well_formed_seed (s : node) : well_formed (seed_path s).
Proof.
  split; [by exists (seed_arc s), []|].
  intros [|i] a b Ha Hb; simplify_eq/=.
Qed.

Lemma well_formed_extend (p : Path node) (a arc : Arc node) :
  well_formed p → last p = Some a → tail arc = Some (head a) →
  well_formed (p ++ [arc]).
Proof.
  intros [Hseed Hlink] Hlast Htail. split.
  - destruct Hseed as (a0 & rest & -> & Hseed). by exists a0, (rest ++ [arc]).
  - intros i x y Hx Hy.
    destruct (decide (S i < length p)) as [Hlt|Hge].
    + rewrite lookup_app_l in Hx by lia. rewrite lookup_app_l in Hy by done.
      by eapply Hlink.
    + assert (is_Some ((p ++ [arc]) !! S i)) as Hi by (by eexists).
      apply lookup_lt_is_Some in Hi. rewrite length_app in Hi. simpl in Hi.
      assert (S i = length p) as Hi' by lia.
      rewrite lookup_app_l in Hx by lia.
      rewrite last_lookup in Hlast.
      replace (pred (length p)) with i in Hlast by lia.
      rewrite lookup_app_r in Hy by lia.
      rewrite Hi', Nat.sub_diag in Hy. by simplify_eq/=.
Qed.

(** C1: when [generic_search] returns a path, that path opens with the
    seed arc [Arc(None, s, "no action", 0)] of a starting node [s], and
    the head of its last arc is a goal.  The frontier is one that
    produces only what was added to it, and it starts empty. *)
Theorem generic_search_returns_seeded_goal_path
    (f0 : fstate Fr) (fuel : nat) (p : Path node) (σ : SearchState Fr) :
  frontier_sound Fr contents → contents f0 = [] →
  generic_search graph Fr fuel f0 = Returned (Some p) σ →
  (∃ s rest, s ∈ starting_nodes graph ∧ p = seed_arc s :: rest)
  ∧ ∃ a, last p = Some a ∧ is_goal graph (head a) = true.
Proof.
  intros Hsound Hf0 Hrun.
  destruct (search_loop_holds graph Fr contents Hsound (seeded graph)
              seeded_nonempty
              (λ p a arc HQ _ _ _, seeded_extend p arc HQ)
              fuel _ (holds_in_seeds graph Fr contents Hsound _ seeded_seed f0 Hf0))
    as [_ Hres].
  unfold generic_search in Hrun. rewrite Hrun in Hres. exact Hres.
Qed.

(** C4: every path handed to [frontier.add] is well formed, when
    [outgoing_arcs n] yields only arcs whose tail is [n].  It holds of
    the calls made in any number of iterations, whether or not the
    search has returned by then. *)
Theorem added_paths_well_formed (f0 : fstate Fr) (fuel : nat) :
  frontier_sound Fr contents → contents f0 = [] →
  (∀ n arc, arc ∈ outgoing_arcs graph n → tail arc = Some n) →
  Forall well_formed
    (added_paths (calls (final_state (generic_search graph Fr fuel f0)))).
Proof.
  intros Hsound Hf0 Htails.
  destruct (search_loop_holds graph Fr contents Hsound well_formed
              well_formed_nonempty
              (λ p a arc HQ Hlast _ Harc,
                 well_formed_extend p a arc HQ Hlast (Htails _ _ Harc))
              fuel _ (holds_in_seeds graph Fr contents Hsound _
                        (λ s _, well_formed_seed s) f0 Hf0))
    as [[_ Hadded] _].
  exact Hadded.
Qed.

(** C8: with no starting node the search adds nothing, tests no goal,
    expands nothing and returns [None] at the first request for a
    path, without raising. *)
Theorem generic_search_no_starting_nodes (f0 : fstate Fr) (fuel : nat) :
  frontier_sound Fr contents → contents f0 = [] →
  starting_nodes graph = [] →
  generic_search graph Fr (S fuel) f0
  = Returned None (mkState f0 [CallStartingNodes; CallNext]).
Proof.
  intros Hsound Hf0 Hstart.
  unfold generic_search, add_seeds. rewrite Hstart. simpl.
  by rewrite (sound_empty _ _ Hsound f0 Hf0).
Qed.
End search_results.

(** ** Termination on finite acyclic graphs *)

Section termination.
Context {node : Type}.
Variable graph : Graph node.
Variable Fr : Frontier node.
Variable contents : fstate Fr → list (Path node).
Variable ns : list node.
Hypothesis Hsound : frontier_sound Fr contents.
Hypothesis Hfinite : finite_graph graph ns.
Hypothesis Hacyclic : acyclic graph ns.

Lemma rtc_in_nodes (n m : node) :
  n ∈ ns → rtc (successor graph) n m → m ∈ ns.
Proof.
  intros Hn Hreach. induction Hreach as [|n k m Hstep _ IH]; [done|].
  apply IH. destruct Hfinite as [_ Hclosed]. by eapply Hclosed.
Qed.

Lemma search_path_nonempty (p : Path node) : search_path graph p → p ≠ [].
Proof.
  intros [s Hs|q a arc _ _ _]; [done|]. by destruct q.
Qed.

Lemma search_path_from_start (p : Path node) :
  search_path graph p →
  ∃ s, s ∈ starting_nodes graph ∧ ∀ a, a ∈ p → rtc (successor graph) s (head a).
Proof.
  induction 1 as [s Hs|p z arc _ (s & Hs & IH) Hlast Harc].
  - exists s. split; [done|]. by intros a ->%list_elem_of_singleton.
  - exists s. split; [done|].
    intros a [Ha| ->%list_elem_of_singleton]%elem_of_app; [by apply IH|].
    eapply rtc_r; [apply IH; by apply last_Some_elem_of|]. by exists arc.
Qed.

Lemma search_path_to_last (p : Path node) (z : Arc node) :
  search_path graph p → last p = Some z →
  ∀ a, a ∈ p → rtc (successor graph) (head a) (head z).
Proof.
  intros Hp. revert z.
  induction Hp as [s Hs|p y arc _ IH Hlast Harc]; intros z Hz a Ha.
  - apply list_elem_of_singleton in Ha as ->. by simplify_eq/=.
  - rewrite last_snoc in Hz. simplify_eq.
    apply elem_of_app in Ha as [Ha| ->%list_elem_of_singleton]; [|done].
    eapply rtc_r; [by apply IH|]. by exists z.
Qed.

Lemma search_path_in_nodes (p : Path node) (a : Arc node) :
  search_path graph p → a ∈ p → head a ∈ ns.
Proof.
  intros (s & Hs & Hreach)%search_path_from_start Ha.
  eapply rtc_in_nodes; [|by apply Hreach]. by apply Hfinite.
Qed.

Lemma search_path_NoDup (p : Path node) :
  search_path graph p → NoDup (head <$> p).
Proof.
  induction 1 as [s Hs|p z arc Hp IH Hlast Harc].
  - apply NoDup_singleton.
  - rewrite fmap_app. apply NoDup_app. split; [done|]. split; [|apply NoDup_singleton].
    intros n (a & -> & Ha)%list_elem_of_fmap Hin.
    apply list_elem_of_singleton in Hin.
    apply (Hacyclic (head a)); [by eapply search_path_in_nodes|].
    eapply tc_rtc_r; [|done].
    eapply tc_rtc_l; [by eapply search_path_to_last|].
    apply tc_once. exists arc. by rewrite Hin.
Qed.

Lemma search_path_length (p : Path node) :
  search_path graph p → length p ≤ length ns.
Proof.
  intros Hp. rewrite <- (length_fmap head p).
  apply submseteq_length, NoDup_submseteq; [by apply search_path_NoDup|].
  intros n (a & -> & Ha)%list_elem_of_fmap. by eapply search_path_in_nodes.
Qed.

(** Expanding a path replaces its weight by that of its extensions,
    which is less by one. *)
Lemma path_weight_expand (p : Path node) (a : Arc node) :
  search_path graph p → last p = Some a →
  S (sum_list (path_weight graph (length ns)
                 <$> ((λ arc, p ++ [arc]) <$> outgoing_arcs graph (head a))))
  = path_weight graph (length ns) p.
Proof.
  intros Hp Hlast. unfold path_weight at 2. rewrite Hlast.
  rewrite <- list_fmap_compose.
  destruct (length ns - length p) as [|d] eqn:Hd; simpl.
  - destruct (outgoing_arcs graph (head a)) as [|arc arcs] eqn:Harcs; [done|].
    assert (search_path graph (p ++ [arc])) as Hext.
    { eapply search_path_extend; [done..|]. rewrite Harcs. left. }
    apply search_path_length in Hext. rewrite length_app in Hext. simpl in Hext. lia.
  - do 2 f_equal. apply list_fmap_ext. intros i arc _. simpl.
    unfold path_weight. rewrite last_snoc, length_app. simpl.
    by replace (length ns - (length p + 1)) with d by lia.
Qed.

Lemma search_loop_exhausts (fuel : nat) (σ : SearchState Fr) :
  no_goal_reachable graph →
  holds_in Fr contents (search_path graph) σ →
  frontier_weight graph Fr contents (length ns) (frontier σ) < fuel →
  ∃ σ', search_loop graph Fr fuel σ = Returned None σ'
        ∧ iter_next Fr (frontier σ') = None.
Proof.
  intros Hnogoal. revert σ.
  induction fuel as [|fuel IH]; intros σ Hσ Hfuel; [lia|]. simpl.
  destruct (iter_next Fr (frontier σ)) as [[p f']|] eqn:Hnext; [|by eexists].
  assert (search_path graph p) as Hp.
  { eapply (produced_holds Fr contents Hsound); [exact Hσ|exact Hnext]. }
  destruct (last p) as [a|] eqn:Hlast;
    [|apply last_None in Hlast; by apply search_path_nonempty in Hp].
  assert (is_goal graph (head a) = false) as Hgoal.
  { destruct (search_path_from_start p Hp) as (s & Hs & Hreach).
    eapply Hnogoal; [done|]. by apply Hreach, last_Some_elem_of. }
  rewrite Hgoal. apply IH.
  - apply (holds_in_step graph Fr contents Hsound (search_path graph)); try done.
    intros q b arc Hq Hb _ Harc. by eapply search_path_extend.
  - set (w := path_weight graph (length ns)).
    set (exts := (λ arc, p ++ [arc]) <$> outgoing_arcs graph (head a)).
    assert (w p + sum_list (w <$> contents f')
            ≤ sum_list (w <$> contents (frontier σ))) as Hpop.
    { exact (sum_list_sub w _ _ (sound_next _ _ Hsound _ _ _ Hnext)). }
    assert (sum_list (w <$> contents (frontier
              (expand graph Fr p (head a)
                 (record Fr (CallIsGoal (head a))
                    (mkState f' (calls σ ++ [CallNext]))))))
            ≤ sum_list (w <$> exts) + sum_list (w <$> contents f')) as Hexp.
    { rewrite <- sum_list_with_app, <- fmap_app.
      apply sum_list_sub, (expand_frontier graph Fr contents Hsound). }
    assert (S (sum_list (w <$> exts)) = w p) as Hw
      by exact (path_weight_expand p a Hp Hlast).
    unfold frontier_weight in *. fold w in Hfuel |- *. lia.
Qed.

Lemma search_path_seeds (f0 : fstate Fr) :
  contents f0 = [] →
  holds_in Fr contents (search_path graph) (add_seeds graph Fr (mkState f0 [])).
Proof.
  apply (holds_in_seeds graph Fr contents Hsound). apply search_path_seed.
Qed.
End termination.

(** C3: on a finite acyclic graph from whose starting nodes no goal can
    be reached, [generic_search] terminates: with enough iterations it
    returns [None], and it does so when the frontier has no path left
    to produce. *)
Theorem generic_search_exhausts_without_goal {node : Type}
    (graph : Graph node) (Fr : Frontier node)
    (contents : fstate Fr → list (Path node)) (ns : list node) (f0 : fstate Fr) :
  frontier_sound Fr contents → contents f0 = [] →
  finite_graph graph ns → acyclic graph ns → no_goal_reachable graph →
  ∃ fuel0 σ,
    (∀ fuel, fuel0 ≤ fuel → generic_search graph Fr fuel f0 = Returned None σ)
    ∧ iter_next Fr (frontier σ) = None.
Proof.
  intros Hsound Hf0 Hfin Hacyc Hnogoal.
  set (σ0 := add_seeds graph Fr (mkState f0 [])).
  set (fuel0 := S (frontier_weight graph Fr contents (length ns) (frontier σ0))).
  destruct (search_loop_exhausts graph Fr contents ns Hsound Hfin Hacyc fuel0 σ0)
    as (σ & Hrun & Hnone); [done| |unfold fuel0; lia|].
  { by apply search_path_seeds. }
  exists fuel0, σ. split; [|done].
  intros fuel Hle. unfold generic_search.
  by eapply search_loop_fuel_mono.
Qed.

(** ** Running the loop against the full contract *)

Section contract_facts.
Context {node : Type}.
Variable graph : Graph node.
Variable Fr : Frontier node.
Variable contents : fstate Fr → list (Path node).
Hypothesis Hcontract : frontier_contract Fr contents.

Lemma foldl_add_resident (ps : list (Path node)) (σ : SearchState Fr) :
  contents (frontier (foldl (frontier_add Fr) σ ps)) ≡ₚ ps ++ contents (frontier σ).
Proof.
  revert σ. induction ps as [|p ps IH]; intros σ; simpl; [done|].
  rewrite IH. simpl. rewrite (contract_add _ _ Hcontract).
  by rewrite Permutation_middle.
Qed.

Lemma expand_resident (p : Path node) (n : node) (σ : SearchState Fr) :
  contents (frontier (expand graph Fr p n σ))
  ≡ₚ ((λ arc, p ++ [arc]) <$> outgoing_arcs graph n) ++ contents (frontier σ).
Proof.
  unfold expand.
  rewrite <- (foldl_fmap (frontier_add Fr) (record Fr (CallOutgoingArcs n) σ)
               (outgoing_arcs graph n) (λ arc, p ++ [arc])).
  exact (foldl_add_resident _ (record Fr (CallOutgoingArcs n) σ)).
Qed.

Lemma add_seeds_resident (σ : SearchState Fr) :
  contents (frontier (add_seeds graph Fr σ))
  ≡ₚ (seed_path <$> starting_nodes graph) ++ contents (frontier σ).
Proof.
  unfold add_seeds.
  rewrite <- (foldl_fmap (frontier_add Fr) (record Fr CallStartingNodes σ)
               (starting_nodes graph) seed_path).
  exact (foldl_add_resident _ (record Fr CallStartingNodes σ)).
Qed.

(** A frontier that holds a path produces one. *)
Lemma contract_produces (f : fstate Fr) :
  contents f ≠ [] →
  ∃ p f', iter_next Fr f = Some (p, f') ∧ contents f ≡ₚ p :: contents f'.
Proof.
  intros Hne. destruct (iter_next Fr f) as [[p f']|] eqn:Hnext.
  - exists p, f'. split; [done|]. by apply (contract_next _ _ Hcontract).
  - by apply (contract_exhausted _ _ Hcontract) in Hnext.
Qed.

(** A frontier that holds one path produces it and is left empty. *)
Lemma contract_produces_only (f : fstate Fr) (p : Path node) :
  contents f ≡ₚ [p] →
  ∃ f', iter_next Fr f = Some (p, f') ∧ contents f' = [].
Proof.
  intros Hf. destruct (contract_produces f) as (q & f' & Hnext & Hperm).
  { intros Hnil. rewrite Hnil in Hf. by apply Permutation_nil_l in Hf. }
  rewrite Hf in Hperm. apply Permutation_singleton_l in Hperm. simplify_eq.
  by exists f'.
Qed.

(** A cheapest-first frontier that holds two paths produces the cheaper. *)
Lemma cheapest_of_two (f : fstate Fr) (x y : Path node) :
  cheapest_first Fr contents →
  contents f ≡ₚ [x; y] → (total_cost x < total_cost y)%Z →
  ∃ f', iter_next Fr f = Some (x, f') ∧ contents f' ≡ₚ [y].
Proof.
  intros Hcheap Hf Hlt. destruct (contract_produces f) as (q & f' & Hnext & Hperm).
  { intros Hnil. rewrite Hnil in Hf. by apply Permutation_nil_l in Hf. }
  assert (q ∈ contents f) as Hq by (rewrite Hperm; left).
  rewrite Hf in Hq. apply elem_of_cons in Hq as [->|Hq%list_elem_of_singleton].
  - exists f'. split; [done|]. rewrite Hf in Hperm.
    by apply Permutation_cons_inv in Hperm.
  - subst q. assert (x ∈ contents f) as Hx by (rewrite Hf; left).
    pose proof (Hcheap _ _ _ Hnext x Hx). lia.
Qed.

Lemma search_loop_goal (fuel : nat) (σ : SearchState Fr) p f' a :
  iter_next Fr (frontier σ) = Some (p, f') → last p = Some a →
  is_goal graph (head a) = true →
  search_loop graph Fr (S fuel) σ
  = Returned (Some p)
      (record Fr (CallIsGoal (head a)) (mkState f' (calls σ ++ [CallNext]))).
Proof. intros Hnext Hlast Hgoal. simpl. by rewrite Hnext, Hlast, Hgoal. Qed.

Lemma search_loop_expand (fuel : nat) (σ : SearchState Fr) p f' a :
  iter_next Fr (frontier σ) = Some (p, f') → last p = Some a →
  is_goal graph (head a) = false →
  search_loop graph Fr (S fuel) σ
  = search_loop graph Fr fuel
      (expand graph Fr p (head a)
         (record Fr (CallIsGoal (head a)) (mkState f' (calls σ ++ [CallNext])))).
Proof. intros Hnext Hlast Hgoal. simpl. by rewrite Hnext, Hlast, Hgoal. Qed.
End contract_facts.

Lemma scenario_a_built : scenario_a = inr explicit_a.
Proof. reflexivity. Qed.

Lemma scenario_abc_built : scenario_abc = inr explicit_abc.
Proof. reflexivity. Qed.

(** ** The two scenarios *)

(** C7: on the graph with the single node A, no edge, start [A] and goal
    {A}, the search returns the one-arc seed path
    [(Arc(None, A, "no action", 0),)] at the first iteration, whatever
    frontier meets the contract; its total cost is 0. *)
Theorem generic_search_start_is_goal {node : Type} `{Countable node}
    (str : node → string) (Estimates : Type) (est : option Estimates)
    (A : node) (g : ExplicitGraph node Estimates)
    (Fr : Frontier node) (contents : fstate Fr → list (Path node))
    (f0 : fstate Fr) (fuel : nat) :
  ExplicitGraph_init Estimates {[A]} [] [A] {[A]} est = inr g →
  frontier_contract Fr contents → contents f0 = [] →
  (∃ σ, generic_search (ExplicitGraph_as_Graph str g) Fr (S fuel) f0
        = Returned (Some [mkArc None A "no action" 0%Z]) σ)
  ∧ total_cost [mkArc None A "no action" 0%Z] = 0%Z.
Proof.
  intros Hinit Hcontract Hf0. split; [|done].
  unfold ExplicitGraph_init in Hinit. simpl in Hinit.
  rewrite elements_singleton in Hinit. simpl in Hinit.
  rewrite bool_decide_true in Hinit by set_solver. simpl in Hinit.
  injection Hinit as <-.
  set (G := ExplicitGraph_as_Graph str _).
  unfold generic_search.
  destruct (contract_produces_only Fr contents Hcontract
              (frontier (add_seeds G Fr (mkState f0 []))) (seed_path A))
    as (f' & Hnext & _).
  { rewrite (add_seeds_resident G Fr contents Hcontract). simpl. by rewrite Hf0. }
  eexists. eapply (search_loop_goal G Fr); [exact Hnext|done|].
  simpl. unfold ExplicitGraph_is_goal. simpl. apply bool_decide_true. set_solver.
Qed.

(** C2: on the graph with nodes {A, B, C}, edges (A,B,1), (B,C,1),
    (A,C,5), start [A] and goal {C}, a frontier that meets the contract
    and produces paths in order of total cost makes the search return
    A->B->C, of total cost 2, within three iterations; it never returns
    A->C, of cost 5. *)
Theorem generic_search_cheapest_first_abc (g : ExplicitGraph string unit)
    (Fr : Frontier string) (contents : fstate Fr → list (Path string))
    (f0 : fstate Fr) :
  scenario_abc = inr g →
  frontier_contract Fr contents → cheapest_first Fr contents →
  contents f0 = [] →
  (∃ σ, ∀ fuel, 3 ≤ fuel →
     generic_search (ExplicitGraph_as_Graph id g) Fr fuel f0
     = Returned (Some path_abc) σ)
  ∧ total_cost path_abc = 2%Z
  ∧ total_cost path_ac = 5%Z
  ∧ ∀ fuel σ, generic_search (ExplicitGraph_as_Graph id g) Fr fuel f0
              ≠ Returned (Some path_ac) σ.
Proof.
  intros Hinit Hcontract Hcheap Hf0.
  rewrite scenario_abc_built in Hinit. injection Hinit as <-.
  set (G := ExplicitGraph_as_Graph id explicit_abc).
  assert (∃ σ, search_loop G Fr 3 (add_seeds G Fr (mkState f0 []))
               = Returned (Some path_abc) σ) as [σ Hrun].
  { destruct (contract_produces_only Fr contents Hcontract
                (frontier (add_seeds G Fr (mkState f0 []))) (seed_path "A"))
      as (f1 & Hnext1 & Hf1).
    { rewrite (add_seeds_resident G Fr contents Hcontract). simpl. by rewrite Hf0. }
    rewrite (search_loop_expand G Fr 2 _ _ _ _ Hnext1 eq_refl eq_refl).
    set (σ1 := expand G Fr _ _ _).
    destruct (cheapest_of_two Fr contents Hcontract (frontier σ1)
                [seed_arc "A"; mkArc (Some "A") "B" "A->B" 1%Z] path_ac Hcheap)
      as (f2 & Hnext2 & Hf2); [|done|].
    { unfold σ1. rewrite (expand_resident G Fr contents Hcontract). simpl.
      by rewrite Hf1. }
    rewrite (search_loop_expand G Fr 1 _ _ _ _ Hnext2 eq_refl eq_refl).
    set (σ2 := expand G Fr _ _ _).
    destruct (cheapest_of_two Fr contents Hcontract (frontier σ2)
                path_abc path_ac Hcheap)
      as (f3 & Hnext3 & Hf3); [|done|].
    { unfold σ2. rewrite (expand_resident G Fr contents Hcontract). simpl.
      by rewrite Hf2. }
    eexists. exact (search_loop_goal G Fr 0 _ _ _ _ Hnext3 eq_refl eq_refl). }
  split; [|split; [done|split; [done|]]].
  - exists σ. intros fuel Hfuel. unfold generic_search.
    by eapply search_loop_fuel_mono.
  - intros fuel σ' Hbad. unfold generic_search in Hbad.
    apply (search_loop_fuel_mono G Fr fuel (fuel `max` 3)) in Hbad; [|lia].
    apply (search_loop_fuel_mono G Fr 3 (fuel `max` 3)) in Hrun; [|lia].
    rewrite Hrun in Hbad. discriminate Hbad.
Qed.

(** ** The explicit graph *)

Section ExplicitGraph_facts.
Context {node : Type} `{Countable node}.
Variable str : node → string.
Variable Estimates : Type.

Lemma forallb_elem_of {A : Type} (f : A → bool) (l : list A) :
  forallb f l = true ↔ ∀ x, x ∈ l → f x = true.
Proof.
  rewrite forallb_forall. apply forall_proper. intros x.
  by rewrite list_elem_of_In.
Qed.

Lemma forallb_false_not {A : Type} (f : A → bool) (l : list A) :
  forallb f l = false → ¬ ∀ x, x ∈ l → f x = true.
Proof.
  intros Hf Hall. apply forallb_elem_of in Hall. congruence.
Qed.

(** C5: construction raises AssertionError when an edge's tail or head,
    a starting node or a goal node is outside the node set, and yields
    the graph when all of them are inside.  The error is the result of
    the constructor, so there is no graph to search. *)
Theorem ExplicitGraph_init_validates (nodes : gset node)
    (edge_list : list (Edge node)) (starting_list : list node)
    (goal_nodes : gset node) (est : option Estimates) :
  (valid_arguments nodes edge_list starting_list goal_nodes
   ∧ ExplicitGraph_init Estimates nodes edge_list starting_list goal_nodes est
     = inr (mkExplicitGraph Estimates nodes edge_list starting_list goal_nodes est))
  ∨ (¬ valid_arguments nodes edge_list starting_list goal_nodes
     ∧ ∃ msg, ExplicitGraph_init Estimates nodes edge_list starting_list
                goal_nodes est = inl (AssertionError msg)).
Proof.
  unfold ExplicitGraph_init, valid_arguments.
  destruct (forallb _ edge_list) eqn:Hedges; simpl.
  - destruct (forallb _ starting_list) eqn:Hstarts; simpl.
    + destruct (forallb _ (elements goal_nodes)) eqn:Hgoals; simpl.
      * left. split; [|done]. split; [|split].
        -- intros e He. eapply forallb_elem_of in Hedges; [|exact He].
           apply andb_true_iff in Hedges as [Ht Hh].
           by apply bool_decide_eq_true in Ht, Hh.
        -- intros n Hn. eapply forallb_elem_of in Hstarts; [|exact Hn].
           by apply bool_decide_eq_true in Hstarts.
        -- intros n Hn%elem_of_elements.
           eapply forallb_elem_of in Hgoals; [|exact Hn].
           by apply bool_decide_eq_true in Hgoals.
      * right. split; [|by eexists]. intros (_ & _ & Hg).
        apply forallb_false_not in Hgoals. apply Hgoals.
        intros n Hn%elem_of_elements. apply bool_decide_eq_true. by apply Hg.
    + right. split; [|by eexists]. intros (_ & Hs & _).
      apply forallb_false_not in Hstarts. apply Hstarts.
      intros n Hn. apply bool_decide_eq_true. by apply Hs.
  - right. split; [|by eexists]. intros (He & _ & _).
    apply forallb_false_not in Hedges. apply Hedges.
    intros e Hin. destruct (He e Hin) as [Ht Hh].
    apply andb_true_iff. by rewrite !bool_decide_eq_true.
Qed.

Lemma arcs_of_edges_filter (edges : list (Edge node)) (n : node) :
  arcs_of_edges str edges n
  = arc_of_edge str <$> filter (λ e, edge_tail e = n) edges.
Proof.
  induction edges as [|e es IH]; simpl; [done|].
  rewrite filter_cons. case_bool_decide as Htl.
  - rewrite decide_True by done. by rewrite fmap_cons, IH.
  - by rewrite decide_False.
Qed.

(** The arcs an explicit graph yields for [n] leave [n]. *)
Lemma ExplicitGraph_outgoing_arcs_tail (g : ExplicitGraph node Estimates)
    (n : node) (arc : Arc node) :
  arc ∈ ExplicitGraph_outgoing_arcs str g n → tail arc = Some n.
Proof.
  unfold ExplicitGraph_outgoing_arcs. rewrite arcs_of_edges_filter.
  intros (e & -> & [He _]%list_elem_of_filter)%list_elem_of_fmap.
  simpl. by rewrite He.
Qed.

(** C6: [outgoing_arcs n] yields, in the order of the edge list, one arc
    for each edge whose tail is [n]: it has the edge's tail and head, the
    label [str(tail) + '->' + str(head)], and the edge's cost, or 1 when
    the edge has none. *)
Theorem ExplicitGraph_outgoing_arcs_spec (g : ExplicitGraph node Estimates)
    (n : node) :
  ExplicitGraph_outgoing_arcs str g n
  = arc_of_edge str <$> filter (λ e, edge_tail e = n) (edge_list g).
Proof. apply arcs_of_edges_filter. Qed.

(** C10: the heuristic of the base class raises NotImplementedError for
    every node and returns no number, zero included; the explicit graph
    inherits it, estimates or not. *)
Theorem estimated_cost_to_goal_not_supported (g : ExplicitGraph node Estimates)
    (n : node) :
  Graph_estimated_cost_to_goal n = inl NotImplementedError
  ∧ (∀ z : Z, Graph_estimated_cost_to_goal n ≠ inr z)
  ∧ estimated_cost_to_goal (ExplicitGraph_as_Graph str g) n
    = inl NotImplementedError.
Proof. split; [done|]. split; [|done]. intros z. discriminate. Qed.
End ExplicitGraph_facts.

(** ** The path printer *)

Section print_actions_facts.
Context {node : Type}.

Lemma foldl_add_foldr (z : Z) (p : Path node) :
  foldl Z.add z (cost <$> p) = (z + foldr (λ arc s, cost arc + s) 0 p)%Z.
Proof.
  revert z. induction p as [|a p IH]; intros z; simpl; [lia|].
  rewrite IH. lia.
Qed.

(** The total printed is the sum of all arc costs. *)
Lemma total_cost_sum (p : Path node) :
  total_cost p = foldr (λ arc s, (cost arc + s)%Z) 0%Z p.
Proof. unfold total_cost. rewrite foldl_add_foldr. lia. Qed.

(** The two printing loops lay out the labels of a non-empty run of
    arcs as an action list. *)
Lemma printed_action_lines (b : Arc node) (rest : Path node) :
  ∃ z, last (b :: rest) = Some z
       ∧ ((λ arc, "  " +:+ label arc +:+ ",") <$> take (length rest) (b :: rest))
         ++ ["  " +:+ label z +:+ "."]
         = action_lines (label <$> b :: rest).
Proof.
  revert b. induction rest as [|c rest IH]; intros b.
  - by exists b.
  - destruct (IH c) as (z & Hlast & Hlines). exists z. split; [done|].
    change (take (length (c :: rest)) (b :: c :: rest))
      with (b :: take (length rest) (c :: rest)).
    rewrite fmap_cons. simpl app. rewrite Hlines. done.
Qed.

(** C9, as the code has it: for a path of two arcs or more the printer
    writes the labels of all arcs but the seed, in path order, as the
    action list, and then the sum of all arc costs; for a path of one
    arc it writes that arc's label as the only action and its cost as
    the total; for [None] and for the empty tuple it writes the fixed
    line. *)
Theorem print_actions_output (a b : Arc node) (rest : Path node) :
  print_actions (Some (a :: b :: rest)) = claimed_output (a :: b :: rest)
  ∧ print_actions (Some [a])
    = ["Actions:"; "  " +:+ label a +:+ "."; "Total Cost: " +:+ pretty (cost a)]
  ∧ print_actions (@None (Path node)) = ["There is no solution!"]
  ∧ print_actions (Some (@nil (Arc node))) = ["There is no solution!"].
Proof.
  split; [|done].
  destruct (printed_action_lines b rest) as (z & Hlast & Hlines).
  unfold print_actions, claimed_output.
  rewrite last_cons_cons, Hlast, total_cost_sum.
  change (inner_arcs (a :: b :: rest)) with (take (length rest) (b :: rest)).
  change (drop 1 (a :: b :: rest)) with (b :: rest).
  rewrite <- Hlines. by rewrite <- !app_assoc.
Qed.
End print_actions_facts.

(** C9 as stated fails on the one-arc solution path: the printer writes
    the seed's label as an action, where the labels of all arcs but the
    seed are none. *)
Lemma print_actions_seed_only :
  print_actions (Some [seed_arc "A"])
  = ["Actions:"; "  no action."; "Total Cost: 0"]
  ∧ claimed_output [seed_arc "A"] = ["Actions:"; "Total Cost: 0"]
  ∧ print_actions (Some [seed_arc "A"]) ≠ claimed_output [seed_arc "A"].
Proof. split; [reflexivity|]. split; [reflexivity|]. discriminate. Qed.

(** ** Instances *)

(** A graph whose arcs all go down a rank has no cycle. *)
Lemma ranked_acyclic {node : Type} (graph : Graph node) (rank : node → nat)
    (ns : list node) :
  (∀ n m, successor graph n m → rank m < rank n) → acyclic graph ns.
Proof.
  intros Hrank n _ Hcycle.
  assert (∀ x y, tc (successor graph) x y → rank y < rank x) as Htc.
  { induction 1 as [x y Hxy|x y z Hxy _ IH]; [by apply Hrank|].
    apply Hrank in Hxy. lia. }
  apply Htc in Hcycle. lia.
Qed.

Lemma graph_no_goal_successor (n m : string) :
  successor graph_no_goal n m →
  (n = "A" ∧ (m = "B" ∨ m = "C")) ∨ (n = "B" ∧ m = "C").
Proof.
  intros (arc & Harc & <-).
  change (outgoing_arcs graph_no_goal n)
    with (arcs_of_edges id
            [mkEdge "A" "B" (Some 1%Z); mkEdge "B" "C" (Some 1%Z);
             mkEdge "A" "C" (Some 5%Z)] n) in Harc.
  simpl in Harc.
  repeat case_bool_decide; subst; try done;
    rewrite ?elem_of_cons, ?elem_of_nil in Harc;
    intuition (subst; simpl; auto).
Qed.

Lemma graph_no_goal_finite : finite_graph graph_no_goal ["A"; "B"; "C"].
Proof.
  split.
  - intros s Hs. simpl in Hs. apply list_elem_of_singleton in Hs as ->. left.
  - intros n m _ Hnm. apply graph_no_goal_successor in Hnm.
    rewrite !elem_of_cons. intuition auto.
Qed.

Lemma graph_no_goal_acyclic : acyclic graph_no_goal ["A"; "B"; "C"].
Proof.
  apply (ranked_acyclic _
           (λ n, if decide (n = "A") then 2 else if decide (n = "B") then 1 else 0)).
  intros n m Hnm. apply graph_no_goal_successor in Hnm.
  destruct Hnm as [[-> [->| ->]]|[-> ->]]; simpl; lia.
Qed.

Lemma graph_no_goal_no_goal : no_goal_reachable graph_no_goal.
Proof. intros s n _ _. simpl. unfold ExplicitGraph_is_goal. simpl. by apply bool_decide_false. Qed.

Lemma generic_search_returns_seeded_goal_path_witness :
  (∃ s rest, s ∈ starting_nodes graph_abc ∧ path_ac = seed_arc s :: rest)
  ∧ ∃ a, last path_ac = Some a ∧ is_goal graph_abc (head a) = true.
Proof.
  eapply (generic_search_returns_seeded_goal_path graph_abc fifo_frontier
            (λ f, f) [] 3 path_ac).
  - apply contract_sound, fifo_contract.
  - reflexivity.
  - reflexivity.
Defined.

Lemma generic_search_cheapest_first_abc_witness :
  (∃ σ, ∀ fuel, 3 ≤ fuel →
     generic_search (ExplicitGraph_as_Graph id explicit_abc) cheapest_frontier fuel []
     = Returned (Some path_abc) σ)
  ∧ total_cost path_abc = 2%Z
  ∧ total_cost path_ac = 5%Z
  ∧ ∀ fuel σ, generic_search (ExplicitGraph_as_Graph id explicit_abc)
                cheapest_frontier fuel []
              ≠ Returned (Some path_ac) σ.
Proof.
  apply (generic_search_cheapest_first_abc explicit_abc cheapest_frontier (λ f, f) []).
  - reflexivity.
  - apply cheapest_contract.
  - apply cheapest_cheapest_first.
  - reflexivity.
Defined.

Lemma generic_search_exhausts_without_goal_witness :
  ∃ fuel0 σ,
    (∀ fuel, fuel0 ≤ fuel →
       generic_search graph_no_goal fifo_frontier fuel [] = Returned None σ)
    ∧ iter_next fifo_frontier (frontier σ) = None.
Proof.
  apply (generic_search_exhausts_without_goal graph_no_goal fifo_frontier
           (λ f, f) ["A"; "B"; "C"] []).
  - apply contract_sound, fifo_contract.
  - reflexivity.
  - apply graph_no_goal_finite.
  - apply graph_no_goal_acyclic.
  - apply graph_no_goal_no_goal.
Defined.

Lemma added_paths_well_formed_witness :
  Forall well_formed
    (added_paths (calls (final_state (generic_search graph_abc fifo_frontier 3 [])))).
Proof.
  apply (added_paths_well_formed graph_abc fifo_frontier (λ f, f) [] 3).
  - apply contract_sound, fifo_contract.
  - reflexivity.
  - intros n arc. apply ExplicitGraph_outgoing_arcs_tail.
Defined.

Lemma generic_search_start_is_goal_witness :
  (∃ σ, generic_search (ExplicitGraph_as_Graph id explicit_a) fifo_frontier 1 []
        = Returned (Some [mkArc None "A" "no action" 0%Z]) σ)
  ∧ total_cost [mkArc None "A" "no action" 0%Z] = 0%Z.
Proof.
  apply (generic_search_start_is_goal id unit None "A" explicit_a fifo_frontier
           (λ f, f) [] 0).
  - reflexivity.
  - apply fifo_contract.
  - reflexivity.
Defined.

Lemma generic_search_no_starting_nodes_witness :
  generic_search graph_no_start fifo_frontier 1 []
  = Returned None (@mkState string fifo_frontier [] [CallStartingNodes; CallNext]).
Proof.
  apply (generic_search_no_starting_nodes graph_no_start fifo_frontier (λ f, f) [] 0).
  - apply contract_sound, fifo_contract.
  - reflexivity.
  - reflexivity.
Defined.

(** * Further properties of the search loop *)

Section loop_facts.
Context {node : Type}.
Variable graph : Graph node.
Variable Fr : Frontier node.

Lemma foldl_add_log (ps : list (Path node)) (σ : SearchState Fr) :
  calls (foldl (frontier_add Fr) σ ps) = calls σ ++ (CallAdd <$> ps).
Proof.
  revert σ. induction ps as [|p ps IH]; intros σ; simpl.
  - by rewrite app_nil_r.
  - rewrite IH. simpl. by rewrite <- app_assoc.
Qed.

Lemma expand_log (p : Path node) (n : node) (σ : SearchState Fr) :
  calls (expand graph Fr p n σ)
  = calls σ ++ CallOutgoingArcs n
      :: (CallAdd <$> ((λ arc, p ++ [arc]) <$> outgoing_arcs graph n)).
Proof.
  unfold expand.
  rewrite <- (foldl_fmap (frontier_add Fr) (record Fr (CallOutgoingArcs n) σ)
               (outgoing_arcs graph n) (λ arc, p ++ [arc])).
  rewrite foldl_add_log. simpl. by rewrite <- app_assoc.
Qed.

Lemma add_seeds_log (f0 : fstate Fr) :
  calls (add_seeds graph Fr (mkState f0 [])) = seeding_calls graph.
Proof.
  unfold add_seeds, seeding_calls.
  rewrite <- (foldl_fmap (frontier_add Fr)
               (record Fr CallStartingNodes (mkState f0 []))
               (starting_nodes graph) seed_path).
  rewrite foldl_add_log. simpl. by rewrite <- list_fmap_compose.
Qed.

(** The log only grows. *)
Lemma search_loop_log (fuel : nat) (σ : SearchState Fr) :
  ∃ cs, calls (final_state (search_loop graph Fr fuel σ)) = calls σ ++ cs.
Proof.
  revert σ. induction fuel as [|fuel IH]; intros σ; simpl.
  - exists []. by rewrite app_nil_r.
  - destruct (iter_next Fr (frontier σ)) as [[p f']|]; simpl; [|by eexists].
    destruct (last p) as [a|]; simpl; [|by eexists].
    destruct (is_goal graph (head a)); simpl.
    + eexists. by rewrite <- app_assoc.
    + destruct (IH (expand graph Fr p (head a)
                      (record Fr (CallIsGoal (head a))
                         (mkState f' (calls σ ++ [CallNext]))))) as [cs ->].
      rewrite expand_log. simpl. eexists. by rewrite <- !app_assoc.
Qed.

Lemma search_loop_expands_no_goal (fuel : nat) (σ : SearchState Fr) :
  expands_no_goal graph (calls σ) →
  expands_no_goal graph (calls (final_state (search_loop graph Fr fuel σ))).
Proof.
  unfold expands_no_goal.
  revert σ. induction fuel as [|fuel IH]; intros σ Hσ; simpl; [done|].
  destruct (iter_next Fr (frontier σ)) as [[p f']|]; simpl.
  - destruct (last p) as [a|]; simpl.
    + destruct (is_goal graph (head a)) eqn:Hgoal; simpl.
      * rewrite !Forall_app, !Forall_singleton. done.
      * apply IH. rewrite expand_log. simpl.
        rewrite !Forall_app, !Forall_cons.
        repeat split; try done.
        apply Forall_forall. by intros c (q & -> & _)%list_elem_of_fmap.
    + rewrite Forall_app, Forall_singleton. done.
  - rewrite Forall_app, Forall_singleton. done.
Qed.

(** The loop, whatever the frontier does: a returned path ends at a goal
    and [None] is returned when the frontier has stopped producing. *)
Lemma search_loop_result (fuel : nat) (σ σ' : SearchState Fr) sol :
  search_loop graph Fr fuel σ = Returned sol σ' →
  match sol with
  | Some p => ∃ a, last p = Some a ∧ is_goal graph (head a) = true
  | None => iter_next Fr (frontier σ') = None
  end.
Proof.
  revert σ. induction fuel as [|fuel IH]; intros σ Hrun; simpl in Hrun; [done|].
  destruct (iter_next Fr (frontier σ)) as [[p f']|] eqn:Hnext.
  - destruct (last p) as [a|] eqn:Hlast; [|done].
    destruct (is_goal graph (head a)) eqn:Hgoal.
    + simplify_eq. eauto.
    + by eapply IH.
  - by simplify_eq.
Qed.

(** X3: [outgoing_arcs] is never called on a goal node, and the run
    opens by asking for the starting nodes and adding one seed path for
    each, in their order, before it asks the frontier for a path.  This
    holds of every frontier and of every number of iterations. *)
Theorem generic_search_call_discipline (fuel : nat) (f0 : fstate Fr) :
  expands_no_goal graph (calls (final_state (generic_search graph Fr fuel f0)))
  ∧ ∃ cs, calls (final_state (generic_search graph Fr fuel f0))
          = seeding_calls graph ++ cs.
Proof.
  unfold generic_search. split.
  - apply search_loop_expands_no_goal. rewrite add_seeds_log.
    apply Forall_cons. split; [done|]. by apply Forall_fmap, Forall_true.
  - destruct (search_loop_log fuel (add_seeds graph Fr (mkState f0 [])))
      as [cs Hcs].
    exists cs. by rewrite Hcs, add_seeds_log.
Qed.

(** X4: whatever the frontier, contract or not, a path that
    [generic_search] returns ends at a goal node, and [None] is returned
    only in a state where the frontier produces no path. *)
Theorem generic_search_result_any_frontier (fuel : nat) (f0 : fstate Fr)
    (sol : option (Path node)) (σ : SearchState Fr) :
  generic_search graph Fr fuel f0 = Returned sol σ →
  match sol with
  | Some p => ∃ a, last p = Some a ∧ is_goal graph (head a) = true
  | None => iter_next Fr (frontier σ) = None
  end.
Proof. apply search_loop_result. Qed.
End loop_facts.

(** ** Paths under a frontier that keeps to the contract *)

Section path_facts.
Context {node : Type}.
Variable graph : Graph node.
Variable Fr : Frontier node.
Variable contents : fstate Fr → list (Path node).

Lemma graph_path_nonempty (p : Path node) : graph_path graph p → p ≠ [].
Proof. by intros [(s & rest & _ & ->) _]. Qed.

Lemma graph_path_seed (s : node) :
  s ∈ starting_nodes graph → graph_path graph (seed_path s).
Proof.
  intros Hs. split; [by exists s, []|].
  intros [|i] a b Ha Hb; simplify_eq/=.
Qed.

Lemma graph_path_extend (p : Path node) (a arc : Arc node) :
  graph_path graph p → last p = Some a → is_goal graph (head a) = false →
  arc ∈ outgoing_arcs graph (head a) → graph_path graph (p ++ [arc]).
Proof.
  intros [Hseed Hlink] Hlast Hgoal Harc. split.
  - destruct Hseed as (s & rest & Hs & ->). by exists s, (rest ++ [arc]).
  - intros i x y Hx Hy.
    destruct (decide (S i < length p)) as [Hlt|Hge].
    + rewrite lookup_app_l in Hx by lia. rewrite lookup_app_l in Hy by done.
      by eapply Hlink.
    + assert (is_Some ((p ++ [arc]) !! S i)) as Hi by (by eexists).
      apply lookup_lt_is_Some in Hi. rewrite length_app in Hi. simpl in Hi.
      assert (S i = length p) as Hi' by lia.
      rewrite lookup_app_l in Hx by lia.
      rewrite last_lookup in Hlast.
      replace (pred (length p)) with i in Hlast by lia.
      rewrite lookup_app_r in Hy by lia.
      rewrite Hi', Nat.sub_diag in Hy. by simplify_eq/=.
Qed.

Lemma snoc_nonempty (p : Path node) (arc : Arc node) : p ++ [arc] ≠ [].
Proof. by destruct p. Qed.

(** X1: with a frontier that produces only what was added to it and
    starts empty, [path[-1]] never fails: no run of [generic_search],
    however long, raises. *)
Theorem generic_search_never_raises (f0 : fstate Fr) (fuel : nat)
    (e : PyError) (σ : SearchState Fr) :
  frontier_sound Fr contents → contents f0 = [] →
  generic_search graph Fr fuel f0 ≠ Raised e σ.
Proof.
  intros Hsound Hf0 Hrun.
  destruct (search_loop_holds graph Fr contents Hsound (λ p, p ≠ [])
              (λ p Hp, Hp)
              (λ p a arc _ _ _ _, snoc_nonempty p arc)
              fuel (add_seeds graph Fr (mkState f0 [])))
    as [_ Hres].
  { apply (holds_in_seeds graph Fr contents Hsound); by intros. }
  unfold generic_search in Hrun. by rewrite Hrun in Hres.
Qed.

(** X2: every path handed to the frontier, and so the solution, is a
    path of the graph: after the seed of a starting node, each arc was
    yielded by [outgoing_arcs] for the head of the arc before it, and no
    node before the last is a goal. *)
Theorem generic_search_paths_follow_graph (f0 : fstate Fr) (fuel : nat) :
  frontier_sound Fr contents → contents f0 = [] →
  Forall (graph_path graph)
    (added_paths (calls (final_state (generic_search graph Fr fuel f0))))
  ∧ ∀ p σ, generic_search graph Fr fuel f0 = Returned (Some p) σ →
           graph_path graph p.
Proof.
  intros Hsound Hf0.
  destruct (search_loop_holds graph Fr contents Hsound (graph_path graph)
              graph_path_nonempty graph_path_extend
              fuel (add_seeds graph Fr (mkState f0 [])))
    as [[_ Hadded] Hres].
  { apply (holds_in_seeds graph Fr contents Hsound);
      [apply graph_path_seed|done]. }
  split; [exact Hadded|].
  intros p σ Hrun. unfold generic_search in Hrun. rewrite Hrun in Hres.
  by destruct Hres.
Qed.
End path_facts.

(** ** Halting and not halting, under the full contract *)

Section exhaustive_facts.
Context {node : Type}.
Variable graph : Graph node.
Variable Fr : Frontier node.
Variable contents : fstate Fr → list (Path node).
Hypothesis Hcontract : frontier_contract Fr contents.

Lemma search_path_extend_any (p : Path node) (a arc : Arc node) :
  search_path graph p → last p = Some a →
  is_goal graph (head a) = false →
  arc ∈ outgoing_arcs graph (head a) → search_path graph (p ++ [arc]).
Proof. intros Hp Hlast _ Harc. by eapply search_path_extend. Qed.

(** Where nothing reachable is a goal or a dead end, the loop goes on. *)
Lemma search_loop_runs_on (fuel : nat) (σ : SearchState Fr) :
  no_goal_reachable graph → no_dead_end graph →
  holds_in Fr contents (search_path graph) σ →
  contents (frontier σ) ≠ [] →
  ∃ σ', search_loop graph Fr fuel σ = OutOfFuel σ'.
Proof.
  intros Hnogoal Hnodead. revert σ.
  induction fuel as [|fuel IH]; intros σ Hσ Hne; [by eexists|].
  pose proof (contract_sound Fr contents Hcontract) as Hsound.
  destruct (contract_produces Fr contents Hcontract _ Hne)
    as (p & f' & Hnext & Hperm).
  pose proof (produced_holds Fr contents Hsound _ _ _ _ Hσ Hnext) as Hp.
  destruct (last p) as [a|] eqn:Hlast;
    [|apply last_None in Hlast; by apply search_path_nonempty in Hp].
  destruct (search_path_from_start graph p Hp) as (s & Hs & Hreach).
  assert (rtc (successor graph) s (head a)) as Hsa
    by (by apply Hreach, last_Some_elem_of).
  rewrite (search_loop_expand graph Fr fuel σ p f' a Hnext Hlast
             (Hnogoal s (head a) Hs Hsa)).
  apply IH.
  - apply (holds_in_step graph Fr contents Hsound (search_path graph)
             search_path_extend_any); try done.
    by apply (Hnogoal s).
  - intros Hnil.
    pose proof (expand_resident graph Fr contents Hcontract p (head a)
                  (record Fr (CallIsGoal (head a))
                     (mkState f' (calls σ ++ [CallNext])))) as Hexp.
    rewrite Hnil in Hexp. apply Permutation_nil_l in Hexp.
    symmetry in Hexp. apply app_eq_nil in Hexp as [Hexts _].
    apply fmap_nil_inv in Hexts. by apply (Hnodead s (head a)).
Qed.

(** X5: the loop has no cycle check.  Where no goal can be reached and
    every node that can be reached has an outgoing arc, a frontier that
    admits every path keeps the search running for ever: no number of
    iterations makes it return. *)
Theorem generic_search_runs_forever (f0 : fstate Fr) (fuel : nat) :
  contents f0 = [] → starting_nodes graph ≠ [] →
  no_goal_reachable graph → no_dead_end graph →
  ∃ σ, generic_search graph Fr fuel f0 = OutOfFuel σ.
Proof.
  intros Hf0 Hstart Hnogoal Hnodead.
  pose proof (contract_sound Fr contents Hcontract) as Hsound.
  apply search_loop_runs_on; try done.
  - by apply search_path_seeds.
  - intros Hnil.
    pose proof (add_seeds_resident graph Fr contents Hcontract
                  (mkState f0 [])) as Hseeds.
    rewrite Hnil in Hseeds. apply Permutation_nil_l in Hseeds.
    symmetry in Hseeds. apply app_eq_nil in Hseeds as [Hseeds _].
    by apply fmap_nil_inv in Hseeds.
Qed.

Variable ns : list node.
Hypothesis Hfinite : finite_graph graph ns.
Hypothesis Hacyclic : acyclic graph ns.

(** While a resident path can still be extended to a goal, the loop on
    a finite acyclic graph ends by returning a path. *)
Lemma search_loop_finds (fuel : nat) (σ : SearchState Fr) :
  holds_in Fr contents (search_path graph) σ →
  (∃ p a g, p ∈ contents (frontier σ) ∧ last p = Some a
            ∧ rtc (successor graph) (head a) g ∧ is_goal graph g = true) →
  frontier_weight graph Fr contents (length ns) (frontier σ) < fuel →
  ∃ q σ', search_loop graph Fr fuel σ = Returned (Some q) σ'.
Proof.
  pose proof (contract_sound Fr contents Hcontract) as Hsound.
  revert σ. induction fuel as [|fuel IH];
    intros σ Hσ (pw & a & g & Hpw & Hlastw & Hreach & Hg) Hfuel; [lia|].
  destruct (contract_produces Fr contents Hcontract (frontier σ))
    as (q & f' & Hnext & Hperm).
  { intros Hnil. rewrite Hnil in Hpw. by apply elem_of_nil in Hpw. }
  pose proof (produced_holds Fr contents Hsound _ _ _ _ Hσ Hnext) as Hq.
  destruct (last q) as [b|] eqn:Hlast;
    [|apply last_None in Hlast; by apply search_path_nonempty in Hq].
  destruct (is_goal graph (head b)) eqn:Hgoal.
  { eexists _, _. by apply (search_loop_goal graph Fr fuel σ q f' b). }
  rewrite (search_loop_expand graph Fr fuel σ q f' b Hnext Hlast Hgoal).
  set (σ2 := expand graph Fr q (head b) _).
  pose proof (expand_resident graph Fr contents Hcontract q (head b)
                (record Fr (CallIsGoal (head b))
                   (mkState f' (calls σ ++ [CallNext])))) as Hexp.
  fold σ2 in Hexp. simpl in Hexp.
  apply IH.
  - apply (holds_in_step graph Fr contents Hsound (search_path graph)
             search_path_extend_any); done.
  - rewrite Hperm in Hpw. apply elem_of_cons in Hpw as [->|Hpw].
    + assert (a = b) as -> by congruence.
      apply rtc_inv in Hreach as [Heq|(m & Hstep & Hreach)];
        [rewrite Heq in Hgoal; congruence|].
      destruct Hstep as (arc & Harc & <-).
      exists (q ++ [arc]), arc, g. rewrite last_snoc. repeat split; try done.
      rewrite Hexp. apply elem_of_app. left.
      apply list_elem_of_fmap. by exists arc.
    + exists pw, a, g. repeat split; try done.
      rewrite Hexp. apply elem_of_app. by right.
  - set (w := path_weight graph (length ns)).
    set (exts := (λ arc, q ++ [arc]) <$> outgoing_arcs graph (head b)).
    assert (sum_list (w <$> contents (frontier σ))
            = w q + sum_list (w <$> contents f')) as Hpop
      by (by rewrite Hperm).
    assert (sum_list (w <$> contents (frontier σ2))
            = sum_list (w <$> exts) + sum_list (w <$> contents f')) as Hnew
      by (by rewrite Hexp, fmap_app, sum_list_with_app).
    assert (S (sum_list (w <$> exts)) = w q) as Hw
      by exact (path_weight_expand graph ns Hfinite Hacyclic q b Hq Hlast).
    unfold frontier_weight in *. fold w in Hfuel |- *. lia.
Qed.

(** X6: on a finite acyclic graph in which a goal can be reached from a
    starting node, a frontier that admits every path and starts empty
    makes [generic_search] halt with a path, and that path ends at a
    goal. *)
Theorem generic_search_finds_reachable_goal (f0 : fstate Fr) :
  contents f0 = [] → goal_reachable graph →
  ∃ fuel0 p σ,
    (∀ fuel, fuel0 ≤ fuel →
       generic_search graph Fr fuel f0 = Returned (Some p) σ)
    ∧ ∃ a, last p = Some a ∧ is_goal graph (head a) = true.
Proof.
  intros Hf0 (s & g & Hs & Hreach & Hg).
  pose proof (contract_sound Fr contents Hcontract) as Hsound.
  set (σ0 := add_seeds graph Fr (mkState f0 [])).
  set (fuel0 := S (frontier_weight graph Fr contents (length ns) (frontier σ0))).
  destruct (search_loop_finds fuel0 σ0) as (p & σ & Hrun).
  - by apply search_path_seeds.
  - exists (seed_path s), (seed_arc s), g. repeat split; try done.
    unfold σ0. rewrite (add_seeds_resident graph Fr contents Hcontract).
    apply elem_of_app. left. apply list_elem_of_fmap. by exists s.
  - unfold fuel0. lia.
  - exists fuel0, p, σ. split.
    + intros fuel Hle. unfold generic_search. by eapply search_loop_fuel_mono.
    + exact (search_loop_result graph Fr fuel0 σ0 σ (Some p) Hrun).
Qed.
End exhaustive_facts.

(** * Further properties of the explicit graph and the printer *)

Section ExplicitGraph_more.
Context {node : Type} `{Countable node}.
Variable str : node → string.
Variable Estimates : Type.

Lemma forallb_nodes_edges (nodes : gset node) (edge_list : list (Edge node)) :
  forallb (λ e, bool_decide (edge_tail e ∈ nodes)
                && bool_decide (edge_head e ∈ nodes)) edge_list = true
  ↔ edges_in nodes edge_list.
Proof.
  rewrite forallb_elem_of. unfold edges_in. apply forall_proper. intros e.
  by rewrite andb_true_iff, !bool_decide_eq_true.
Qed.

Lemma forallb_nodes_all (nodes : gset node) (l : list node) :
  forallb (λ n, bool_decide (n ∈ nodes)) l = true ↔ all_in nodes l.
Proof.
  rewrite forallb_elem_of. unfold all_in. apply forall_proper. intros n.
  by rewrite bool_decide_eq_true.
Qed.

(** X8: the constructor checks the edges first, then the starting
    nodes, then the goal nodes, and the message of the AssertionError
    names the first check that fails. *)
Theorem ExplicitGraph_init_first_failure (nodes : gset node)
    (edge_list : list (Edge node)) (starting_list : list node)
    (goal_nodes : gset node) (est : option Estimates) :
  let result :=
    ExplicitGraph_init Estimates nodes edge_list starting_list goal_nodes est in
  (¬ edges_in nodes edge_list
   ∧ result = inl (AssertionError "edges must link two existing nodes!"))
  ∨ (edges_in nodes edge_list ∧ ¬ all_in nodes starting_list
     ∧ result = inl (AssertionError "The starting_states must be in nodes."))
  ∨ (edges_in nodes edge_list ∧ all_in nodes starting_list
     ∧ ¬ all_in nodes (elements goal_nodes)
     ∧ result = inl (AssertionError "The goal states must be in nodes."))
  ∨ (edges_in nodes edge_list ∧ all_in nodes starting_list
     ∧ all_in nodes (elements goal_nodes)
     ∧ result = inr (mkExplicitGraph Estimates nodes edge_list starting_list
                       goal_nodes est)).
Proof.
  simpl. unfold ExplicitGraph_init.
  destruct (forallb _ edge_list) eqn:Hedges; simpl.
  - apply forallb_nodes_edges in Hedges.
    destruct (forallb _ starting_list) eqn:Hstarts; simpl.
    + apply forallb_nodes_all in Hstarts.
      destruct (forallb _ (elements goal_nodes)) eqn:Hgoals; simpl.
      * apply forallb_nodes_all in Hgoals. by do 3 right.
      * do 2 right. left. split; [done|]. split; [done|]. split; [|done].
        intros Hall. apply forallb_nodes_all in Hall. congruence.
    + right. left. split; [done|]. split; [|done].
      intros Hall. apply forallb_nodes_all in Hall. congruence.
  - left. split; [|done].
    intros Hall. apply forallb_nodes_edges in Hall. congruence.
Qed.

Lemma ExplicitGraph_init_inr (nodes : gset node)
    (edge_list : list (Edge node)) (starting_list : list node)
    (goal_nodes : gset node) (est : option Estimates)
    (g : ExplicitGraph node Estimates) :
  ExplicitGraph_init Estimates nodes edge_list starting_list goal_nodes est = inr g →
  g = mkExplicitGraph Estimates nodes edge_list starting_list goal_nodes est
  ∧ edges_in nodes edge_list ∧ all_in nodes starting_list
  ∧ all_in nodes (elements goal_nodes).
Proof.
  unfold ExplicitGraph_init.
  destruct (forallb _ edge_list) eqn:Hedges; simpl; [|done].
  destruct (forallb _ starting_list) eqn:Hstarts; simpl; [|done].
  destruct (forallb _ (elements goal_nodes)) eqn:Hgoals; simpl; [|done].
  intros [= <-]. split; [done|].
  by rewrite <- forallb_nodes_edges, <- !forallb_nodes_all.
Qed.

Lemma validated_arcs (nodes : gset node) (edge_list : list (Edge node))
    (n : node) (arc : Arc node) :
  edges_in nodes edge_list → arc ∈ arcs_of_edges str edge_list n →
  tail arc = Some n ∧ n ∈ nodes ∧ head arc ∈ nodes.
Proof.
  intros Hedges. rewrite arcs_of_edges_filter.
  intros (e & -> & [He Hin]%list_elem_of_filter)%list_elem_of_fmap.
  destruct (Hedges e Hin) as [Ht Hh]. simpl. by rewrite <- He.
Qed.

(** X7: a graph that the constructor has accepted stays inside its node
    set: its starting nodes and goal nodes belong to it, and every arc
    that [outgoing_arcs n] yields has [n] for tail, with [n] and the
    head in the node set; so a node outside the set has no arc. *)
Theorem ExplicitGraph_validated_closed (nodes : gset node)
    (edge_list : list (Edge node)) (starting_list : list node)
    (goal_nodes : gset node) (est : option Estimates)
    (g : ExplicitGraph node Estimates) :
  ExplicitGraph_init Estimates nodes edge_list starting_list goal_nodes est = inr g →
  finite_graph (ExplicitGraph_as_Graph str g) (elements nodes)
  ∧ (∀ n arc, arc ∈ ExplicitGraph_outgoing_arcs str g n →
       tail arc = Some n ∧ n ∈ nodes ∧ head arc ∈ nodes)
  ∧ (∀ n, n ∉ nodes → ExplicitGraph_outgoing_arcs str g n = [])
  ∧ (∀ n, ExplicitGraph_is_goal g n = true → n ∈ nodes).
Proof.
  intros (-> & Hedges & Hstarts & Hgoals)%ExplicitGraph_init_inr.
  assert (∀ n arc, arc ∈ ExplicitGraph_outgoing_arcs str
            (mkExplicitGraph Estimates nodes edge_list starting_list goal_nodes est) n →
          tail arc = Some n ∧ n ∈ nodes ∧ head arc ∈ nodes) as Harcs.
  { intros n arc. by apply validated_arcs. }
  split; [|split; [done|split]].
  - split.
    + intros s Hs. apply elem_of_elements. by apply Hstarts.
    + intros n m _ (arc & Harc & <-). apply elem_of_elements.
      by apply (Harcs n arc).
  - intros n Hn.
    destruct (ExplicitGraph_outgoing_arcs str _ n) as [|arc arcs] eqn:Hout; [done|].
    destruct (Harcs n arc) as (_ & Hin & _); [rewrite Hout; left|done].
  - intros n Hgoal. apply bool_decide_eq_true in Hgoal.
    by apply Hgoals, elem_of_elements.
Qed.

(** X9: on a graph that the constructor has accepted, with a frontier
    that produces only what was added to it and starts empty, every
    path the search hands to the frontier is well formed and visits
    only nodes of the node set. *)
Theorem generic_search_on_validated_graph (nodes : gset node)
    (edge_list : list (Edge node)) (starting_list : list node)
    (goal_nodes : gset node) (est : option Estimates)
    (g : ExplicitGraph node Estimates)
    (Fr : Frontier node) (contents : fstate Fr → list (Path node))
    (f0 : fstate Fr) (fuel : nat) :
  ExplicitGraph_init Estimates nodes edge_list starting_list goal_nodes est = inr g →
  frontier_sound Fr contents → contents f0 = [] →
  Forall (λ p, well_formed p ∧ ∀ a, a ∈ p → head a ∈ nodes)
    (added_paths (calls (final_state
       (generic_search (ExplicitGraph_as_Graph str g) Fr fuel f0)))).
Proof.
  intros (-> & Hedges & Hstarts & _)%ExplicitGraph_init_inr Hsound Hf0.
  set (G := ExplicitGraph_as_Graph str _).
  set (Q := λ p : Path node, well_formed p ∧ ∀ a, a ∈ p → head a ∈ nodes).
  destruct (search_loop_holds G Fr contents Hsound Q) with
    (fuel := fuel) (σ := add_seeds G Fr (mkState f0 [])) as [[_ Hadded] _];
    [| | |exact Hadded].
  - intros p [Hwf _]. by eapply well_formed_nonempty.
  - intros p a arc [Hwf Hin] Hlast _ Harc.
    destruct (validated_arcs nodes edge_list (head a) arc Hedges Harc)
      as (Htail & _ & Hhead).
    split; [by eapply well_formed_extend|].
    intros x [Hx| ->%list_elem_of_singleton]%elem_of_app; [by apply Hin|done].
  - apply (holds_in_seeds G Fr contents Hsound); [|done].
    intros s Hs. split; [apply well_formed_seed|].
    intros a ->%list_elem_of_singleton. by apply Hstarts.
Qed.
End ExplicitGraph_more.

Section total_cost_facts.
Context {node : Type}.

End total_cost_facts.

(** ** Further instances *)

Lemma graph_abc_goal_reachable : goal_reachable graph_abc.
Proof.
  exists "A", "C". split; [left|]. split; [|reflexivity].
  apply rtc_once. exists (mkArc (Some "A") "C" "A->C" 5%Z).
  split; [|done]. right. left.
Qed.

Lemma graph_loop_successor (n m : string) :
  successor graph_loop n m → m = "A".
Proof.
  intros (arc & Harc & <-).
  change (outgoing_arcs graph_loop n)
    with (arcs_of_edges id [mkEdge "A" "A" None] n) in Harc.
  simpl in Harc. case_bool_decide; [|by apply elem_of_nil in Harc].
  by apply list_elem_of_singleton in Harc as ->.
Qed.

Lemma graph_loop_reachable (n m : string) :
  rtc (successor graph_loop) n m → n = "A" → m = "A".
Proof.
  induction 1 as [|x y z Hxy _ IH]; [done|].
  intros _. apply IH. by eapply graph_loop_successor.
Qed.

Lemma graph_loop_no_goal : no_goal_reachable graph_loop.
Proof.
  intros s n _ _. simpl. unfold ExplicitGraph_is_goal. simpl.
  by apply bool_decide_false.
Qed.

Lemma graph_loop_no_dead_end : no_dead_end graph_loop.
Proof.
  intros s n Hs Hreach. apply list_elem_of_singleton in Hs.
  by rewrite (graph_loop_reachable s n Hreach Hs).
Qed.

Lemma generic_search_never_raises_witness :
  generic_search graph_abc fifo_frontier 3 []
  ≠ Raised IndexError (@mkState string fifo_frontier [] []).
Proof.
  apply (generic_search_never_raises graph_abc fifo_frontier (λ f, f) [] 3).
  - apply contract_sound, fifo_contract.
  - reflexivity.
Defined.

Lemma generic_search_paths_follow_graph_witness :
  Forall (graph_path graph_abc)
    (added_paths (calls (final_state (generic_search graph_abc fifo_frontier 3 []))))
  ∧ ∀ p σ, generic_search graph_abc fifo_frontier 3 [] = Returned (Some p) σ →
           graph_path graph_abc p.
Proof.
  apply (generic_search_paths_follow_graph graph_abc fifo_frontier (λ f, f) [] 3).
  - apply contract_sound, fifo_contract.
  - reflexivity.
Defined.

Lemma generic_search_result_any_frontier_witness :
  ∃ a, last path_ac = Some a ∧ is_goal graph_abc (head a) = true.
Proof.
  eapply (generic_search_result_any_frontier graph_abc fifo_frontier 3 []
            (Some path_ac)).
  reflexivity.
Defined.

Lemma generic_search_runs_forever_witness :
  ∃ σ, generic_search graph_loop fifo_frontier 5 [] = OutOfFuel σ.
Proof.
  apply (generic_search_runs_forever graph_loop fifo_frontier (λ f, f)
           fifo_contract [] 5).
  - reflexivity.
  - discriminate.
  - apply graph_loop_no_goal.
  - apply graph_loop_no_dead_end.
Defined.

Lemma generic_search_finds_reachable_goal_witness :
  ∃ fuel0 p σ,
    (∀ fuel, fuel0 ≤ fuel →
       generic_search graph_abc fifo_frontier fuel [] = Returned (Some p) σ)
    ∧ ∃ a, last p = Some a ∧ is_goal graph_abc (head a) = true.
Proof.
  apply (generic_search_finds_reachable_goal graph_abc fifo_frontier (λ f, f)
           fifo_contract ["A"; "B"; "C"]).
  - exact graph_no_goal_finite.
  - exact graph_no_goal_acyclic.
  - reflexivity.
  - apply graph_abc_goal_reachable.
Defined.

Lemma ExplicitGraph_validated_closed_witness :
  finite_graph (ExplicitGraph_as_Graph id explicit_abc)
    (elements ({["A"; "B"; "C"]} : gset string))
  ∧ (∀ n arc, arc ∈ ExplicitGraph_outgoing_arcs id explicit_abc n →
       tail arc = Some n ∧ n ∈ ({["A"; "B"; "C"]} : gset string)
       ∧ head arc ∈ ({["A"; "B"; "C"]} : gset string))
  ∧ (∀ n, n ∉ ({["A"; "B"; "C"]} : gset string) →
       ExplicitGraph_outgoing_arcs id explicit_abc n = [])
  ∧ (∀ n, ExplicitGraph_is_goal explicit_abc n = true →
       n ∈ ({["A"; "B"; "C"]} : gset string)).
Proof.
  apply (ExplicitGraph_validated_closed id unit {["A"; "B"; "C"]}
           [mkEdge "A" "B" (Some 1%Z); mkEdge "B" "C" (Some 1%Z);
            mkEdge "A" "C" (Some 5%Z)]
           ["A"] {["C"]} None explicit_abc).
  reflexivity.
Defined.

Lemma generic_search_on_validated_graph_witness :
  Forall (λ p, well_formed p
               ∧ ∀ a, a ∈ p → head a ∈ ({["A"; "B"; "C"]} : gset string))
    (added_paths (calls (final_state
       (generic_search (ExplicitGraph_as_Graph id explicit_abc)
          fifo_frontier 3 [])))).
Proof.
  apply (generic_search_on_validated_graph id unit {["A"; "B"; "C"]}
           [mkEdge "A" "B" (Some 1%Z); mkEdge "B" "C" (Some 1%Z);
            mkEdge "A" "C" (Some 5%Z)]
           ["A"] {["C"]} None explicit_abc fifo_frontier (λ f, f) [] 3).
  - reflexivity.
  - apply contract_sound, fifo_contract.
  - reflexivity.
Defined.

(** ** The printer on what the search returns *)

(** X11: handed the result of [generic_search], whatever the frontier,
    the printer writes the line "There is no solution!" exactly when
    the search returned [None]; for a returned path its first line is
    "Actions:". *)
Theorem print_actions_of_search_result {node : Type} (graph : Graph node)
    (Fr : Frontier node) (fuel : nat) (f0 : fstate Fr)
    (sol : option (Path node)) (σ : SearchState Fr) :
  generic_search graph Fr fuel f0 = Returned sol σ →
  (print_actions sol = ["There is no solution!"] ↔ sol = None)
  ∧ (sol ≠ None → ∃ lines, print_actions sol = "Actions:" :: lines).
Proof.
  intros Hrun. apply search_loop_result in Hrun.
  destruct sol as [p|]; simpl.
  - destruct Hrun as (a & Hlast & _). rewrite Hlast. split.
    + split; intros Heq; discriminate Heq.
    + intros _. by eexists.
  - split; [done|]. by intros [].
Qed.

Lemma print_actions_of_search_result_witness :
  (print_actions (Some path_ac) = ["There is no solution!"] ↔ Some path_ac = None)
  ∧ (Some path_ac ≠ None → ∃ lines, print_actions (Some path_ac) = "Actions:" :: lines).
Proof.
  eapply (print_actions_of_search_result graph_abc fifo_frontier 3 []).
  reflexivity.
Defined.
